(** * Session and transfer engine of backend/service.py

    A shallow embedding of the interactive-session handlers
    ([handle_ssh_connection], [handle_ssh_input], [handle_ssh_close],
    [handle_resize], [read_output]) and of the transfer bookkeeping
    ([TransferProgress], [TransferManager], [OptimizedFileTransfer],
    [upload_file], [download_file]) of the service.

    Conventions of the embedding:
    - the module-level dictionaries [ssh_sessions] and [client_sessions]
      are finite maps carried in an explicit [state];
    - everything the handlers ask of the outside world (socketio.emit, calls
      on a paramiko channel or client, starting a thread) is appended, in
      program order, to the [effects] log of the state;
    - what the outside world answers (the result of connecting, what a
      channel poll returns, the wall clock) is an explicit argument;
    - inside the request handlers a call on a channel or client is recorded
      as issued and taken to return; the reader thread, which is there to
      notice a failing channel, gets the outcome of each of its calls from
      its argument;
    - a handler that holds [sessions_lock] from its first to its last line
      is one atomic step; a reader thread takes one step per pass of its
      loop and one more for its [finally] block;
    - [print] and [logger] lines are not part of the state;
    - Python floats (clock readings, speeds, percentages) are exact
      rationals. *)

From Stdlib Require Import QArith Qminmax Ascii String.
From stdpp Require Import gmap strings list fin_maps pretty.

#[local] Open Scope Z_scope.
#[local] Open Scope string_scope.

(** ** Interactive sessions *)

(** class SSHSession.  Connection and channel objects are opaque handles;
    [read_thread] is the index of the reader thread in [threads]. *)
Record SSHSession := mkSSHSession {
  ssh_client : nat;
  channel : nat;
  active : bool;
  read_thread : nat;
  client_id : option string
}.

(** SSHSession.__init__(ssh_client, channel, read_thread) *)
Definition SSHSession_init (ssh ch thread : nat) : SSHSession :=
  {| ssh_client := ssh; channel := ch; active := true;
     read_thread := thread; client_id := None |}.

Definition set_client_id (c : string) (s : SSHSession) : SSHSession :=
  {| ssh_client := ssh_client s; channel := channel s; active := active s;
     read_thread := read_thread s; client_id := Some c |}.

Definition set_active (b : bool) (s : SSHSession) : SSHSession :=
  {| ssh_client := ssh_client s; channel := channel s; active := b;
     read_thread := read_thread s; client_id := client_id s |}.

(** Calls that leave the process.  [emit event session_id fields room] is
    socketio.emit(event, {'session_id': session_id, **fields}, room=room);
    [room = None] is a broadcast to every connected client. *)
Inductive effect :=
| emit (event : string) (session_id : string)
       (fields : list (string * string)) (room : option string)
| channel_send (ch : nat) (data : string)
| channel_close (ch : nat)
| ssh_close (conn : nat)
| resize_pty (ch : nat) (width height : Z)
| update_environment (ch : nat) (env : list (string * string))
| thread_start (thread : nat).

(** One [read_output] thread: its arguments, its locals and where it is. *)
Inductive phase := Starting | Looping | Leaving | Ended.

Record reader := mkReader {
  r_session_id : string;
  r_channel : nat;
  r_last_activity : Q;
  r_buffer : list Byte.byte;
  r_phase : phase
}.

Record state := mkState {
  ssh_sessions : gmap string SSHSession;
  client_sessions : gmap string (gset string);
  threads : list reader;
  effects : list effect
}.

Definition initial_state : state :=
  {| ssh_sessions := ∅; client_sessions := ∅; threads := []; effects := [] |}.

Definition perform (es : list effect) (st : state) : state :=
  {| ssh_sessions := ssh_sessions st; client_sessions := client_sessions st;
     threads := threads st; effects := effects st ++ es |}.

Definition with_sessions (m : gmap string SSHSession) (st : state) : state :=
  {| ssh_sessions := m; client_sessions := client_sessions st;
     threads := threads st; effects := effects st |}.

Definition with_client_sessions (m : gmap string (gset string)) (st : state)
  : state :=
  {| ssh_sessions := ssh_sessions st; client_sessions := m;
     threads := threads st; effects := effects st |}.

Definition with_threads (l : list reader) (st : state) : state :=
  {| ssh_sessions := ssh_sessions st; client_sessions := client_sessions st;
     threads := l; effects := effects st |}.

(** The socket.io request context: [request.sid] names the calling client. *)
Record request := mkRequest { sid : string }.

(** What create_ssh_client(data) did: returned a client and a channel, or
    raised one of the exceptions [handle_ssh_connection] tells apart. *)
Inductive connect_result :=
| Connected (ssh ch : nat)
| ConnectionError (msg : string)
| AuthenticationException
| OtherException (msg : string).

(** @socketio.on('open_ssh') *)
Definition handle_ssh_connection (req : request) (session_id : string)
    (r : connect_result) (st : state) : state :=
  let client := sid req in
  match r with
  | ConnectionError msg =>
      perform [emit "ssh_error" session_id
                 [("error", "Network Connection Failed: " ++ msg);
                  ("type", "network")] (Some client)] st
  | AuthenticationException =>
      perform [emit "ssh_error" session_id
                 [("error",
                   "Authentication Failed: Invalid username, password or key");
                  ("type", "auth")] (Some client)] st
  | OtherException msg =>
      perform [emit "ssh_error" session_id
                 [("error", "Connection failed: " ++ msg);
                  ("type", "unknown")] (Some client)] st
  | Connected ssh ch =>
      let thread := length (threads st) in
      let session := set_client_id client (SSHSession_init ssh ch thread) in
      let owned := default ∅ (client_sessions st !! client) in
      {| ssh_sessions := <[session_id := session]> (ssh_sessions st);
         client_sessions :=
           <[client := owned ∪ {[session_id]}]> (client_sessions st);
         threads := threads st ++
           [{| r_session_id := session_id; r_channel := ch;
               r_last_activity := 0; r_buffer := []; r_phase := Starting |}];
         effects := effects st ++
           [thread_start thread;
            emit "ssh_connected" session_id
              [("message", "Connected successfully")] (Some client)] |}
  end.

Definition LF : string := String (ascii_of_nat 10) "".
Definition NUL : string := String (ascii_of_nat 0) "".

(** @socketio.on('ssh_input'); [is_pasted] and [is_last_line] are
    data.get('isPasted', False) and data.get('isLastLine', False). *)
Definition handle_ssh_input (req : request) (session_id input_data : string)
    (is_pasted is_last_line : bool) (st : state) : state :=
  let client := sid req in
  match ssh_sessions st !! session_id with
  | None =>
      perform [emit "ssh_error" session_id
                 [("error", "Session not found or inactive")] (Some client)] st
  | Some session =>
      if negb (active session) then
        perform [emit "ssh_error" session_id
                   [("error", "Session not found or inactive")] (Some client)] st
      else if negb (bool_decide (client_id session = Some client)) then
        perform [emit "ssh_error" session_id
                   [("error", "Session belongs to another client")]
                   (Some client)] st
      else if is_pasted then
        let st1 := perform [channel_send (channel session) input_data] st in
        if negb is_last_line
        then perform [channel_send (channel session) LF] st1
        else st1
      else
        perform [channel_send (channel session) input_data] st
  end.

(** @socketio.on('close_ssh').  [set.remove] raises KeyError when the id is
    not in the client's set; the handler's outer [except] then emits an
    ssh_error (a broadcast, the call has no room) whose text is str(KeyError),
    the quoted key. *)
Definition handle_ssh_close (req : request) (session_id : string)
    (st : state) : state :=
  let client := sid req in
  match ssh_sessions st !! session_id with
  | Some session =>
      if bool_decide (client_id session = Some client) then
        let st1 :=
          with_sessions (<[session_id := set_active false session]>
                           (ssh_sessions st)) st in
        let st2 :=
          perform [channel_close (channel session);
                   ssh_close (ssh_client session)] st1 in
        let st3 := with_sessions (delete session_id (ssh_sessions st2)) st2 in
        match client_sessions st3 !! client with
        | Some owned =>
            if bool_decide (session_id ∈ owned) then
              perform [emit "ssh_closed" session_id
                         [("message", "Connection closed")] None]
                (with_client_sessions
                   (<[client := owned ∖ {[session_id]}]> (client_sessions st3))
                   st3)
            else
              perform [emit "ssh_error" session_id
                         [("error", "'" ++ session_id ++ "'")] None] st3
        | None =>
            perform [emit "ssh_closed" session_id
                       [("message", "Connection closed")] None] st3
        end
      else st   (* print: belongs to another client *)
  | None => st  (* print: not found *)
  end.

(** The request payload of 'resize': every key is read with data.get. *)
Record resize_data := mkResize {
  rd_session_id : option string;
  rd_cols : option Z;
  rd_rows : option Z
}.

(** Python truthiness of data.get('session_id'). *)
Definition truthy (o : option string) : bool :=
  match o with
  | Some s => negb (bool_decide (s = ""))
  | None => false
  end.

(** @socketio.on('resize') *)
Definition handle_resize (req : request) (data : resize_data) (st : state)
  : state :=
  match rd_session_id data with
  | Some session_id =>
      if negb (truthy (rd_session_id data)) then st
      else
        match ssh_sessions st !! session_id with
        | None => st
        | Some session =>
            let cols := Z.max 80 (Z.min (default 80 (rd_cols data)) 500) in
            let rows := Z.max 24 (Z.min (default 24 (rd_rows data)) 200) in
            perform [resize_pty (channel session) cols rows;
                     update_environment (channel session)
                       [("COLUMNS", pretty cols); ("LINES", pretty rows)]] st
        end
  | None => st
  end.

(** ** The output reader, one thread per opened session *)

(** What one pass of the loop of [read_output] sees of the channel:
    channel.recv_ready() and, when it is true, what channel.recv(1024) did;
    when it is false, whether the keepalive channel.send would go through;
    the wall clock; and the closing test on channel and transport. *)
Inductive recv_outcome :=
| recv_data (data : list Byte.byte)
| recv_timeout
| recv_error.

Inductive poll :=
| ready (r : recv_outcome)
| idle (keepalive_ok : bool).

Record observation := mkObservation {
  now : Q;
  polled : poll;
  channel_open : bool
}.

Definition Qlt_bool (x y : Q) : bool := negb (Qle_bool y x).

Definition set_phase (p : phase) (r : reader) : reader :=
  {| r_session_id := r_session_id r; r_channel := r_channel r;
     r_last_activity := r_last_activity r; r_buffer := r_buffer r;
     r_phase := p |}.

Definition set_locals (last : Q) (buf : list Byte.byte) (r : reader) : reader :=
  {| r_session_id := r_session_id r; r_channel := r_channel r;
     r_last_activity := last; r_buffer := buf; r_phase := r_phase r |}.

(** The [finally] block of [read_output]. *)
Definition read_output_finally (r : reader) (st : state) : state :=
  let session_id := r_session_id r in
  let st1 :=
    match ssh_sessions st !! session_id with
    | Some session =>
        with_sessions (<[session_id := set_active false session]>
                         (ssh_sessions st)) st
    | None => st
    end in
  perform [emit "ssh_closed" session_id
             [("message", "Connection closed")] None] st1.

Section OutputReader.

(** bytes.decode('utf-8', errors='ignore') *)
Variable decode : list Byte.byte → string.

(** The test that ends every pass that neither continues nor breaks:
    channel.closed or no transport or transport not active. *)
Definition check_channel (o : observation) (r : reader) : reader :=
  if channel_open o then r else set_phase Leaving r.

(** One pass of [while True] for a reader in phase [Looping].  A [break]
    is phase [Leaving] of the result: the [finally] block is still to run
    and other requests may be served before it does. *)
Definition read_output_pass (o : observation) (r : reader) (st : state)
  : reader * state :=
  let session_id := r_session_id r in
  let registered :=
    match ssh_sessions st !! session_id with
    | Some session => active session
    | None => false
    end in
  if negb registered then (set_phase Leaving r, st)
  else
    match polled o with
    | ready (recv_data data) =>
        match data with
        | [] => (check_channel o r, st)
        | _ :: _ =>
            let text := decode (r_buffer r ++ data) in
            (check_channel o (set_locals (now o) [] r),
             perform [emit "ssh_output" session_id [("output", text)] None]
               st)
        end
    | ready recv_timeout => (r, st)
    | ready recv_error => (set_phase Leaving r, st)
    | idle keepalive_ok =>
        if Qlt_bool 60 (now o - r_last_activity r) then
          if keepalive_ok then
            (check_channel o (set_locals (now o) (r_buffer r) r),
             perform [channel_send (r_channel r) NUL] st)
          else (set_phase Leaving r, st)
        else (check_channel o r, st)
    end.

(** One scheduling step of a reader thread: its prologue, one pass of the
    loop, or the [finally] block once the loop was left. *)
Definition read_output_step (o : observation) (r : reader) (st : state)
  : reader * state :=
  match r_phase r with
  | Starting => (set_phase Looping (set_locals (now o) [] r), st)
  | Looping => read_output_pass o r st
  | Leaving => (set_phase Ended r, read_output_finally r st)
  | Ended => (r, st)
  end.

(** *** The service as a transition system *)

Inductive action :=
| open_ssh (req : request) (session_id : string) (r : connect_result)
| ssh_input (req : request) (session_id input_data : string)
            (is_pasted is_last_line : bool)
| close_ssh (req : request) (session_id : string)
| resize (req : request) (data : resize_data)
| reader_runs (thread : nat) (o : observation).

Definition step (a : action) (st : state) : state :=
  match a with
  | open_ssh req session_id r => handle_ssh_connection req session_id r st
  | ssh_input req session_id input_data is_pasted is_last_line =>
      handle_ssh_input req session_id input_data is_pasted is_last_line st
  | close_ssh req session_id => handle_ssh_close req session_id st
  | resize req data => handle_resize req data st
  | reader_runs thread o =>
      match threads st !! thread with
      | Some r =>
          let '(r', st') := read_output_step o r st in
          with_threads (<[thread := r']> (threads st')) st'
      | None => st
      end
  end.

Fixpoint run (tr : list action) (st : state) : state :=
  match tr with
  | [] => st
  | a :: tr' => run tr' (step a st)
  end.

End OutputReader.

(** *** Counting close notifications *)

Fixpoint countb {A} (f : A → bool) (l : list A) : nat :=
  match l with
  | [] => 0
  | x :: l' => (if f x then 1 else 0) + countb f l'
  end%nat.

Definition is_closed_for (session_id : string) (e : effect) : bool :=
  match e with
  | emit event s _ _ =>
      bool_decide (event = "ssh_closed") && bool_decide (s = session_id)
  | _ => false
  end.

Definition closed_events (session_id : string) (st : state) : nat :=
  countb (is_closed_for session_id) (effects st).

Definition has_ended_for (session_id : string) (r : reader) : bool :=
  match r_phase r with
  | Ended => bool_decide (r_session_id r = session_id)
  | _ => false
  end.

Definition ended_readers (session_id : string) (st : state) : nat :=
  countb (has_ended_for session_id) (threads st).

(** A close request is accepted when the session is registered and the
    caller owns it. *)
Definition close_accepted (req : request) (session_id : string) (st : state)
  : bool :=
  match ssh_sessions st !! session_id with
  | Some session => bool_decide (client_id session = Some (sid req))
  | None => false
  end.

(** ** File transfers *)

Definition Qsum (l : list Q) : Q := foldr Qplus 0%Q l.

Module TransferProgress.

(** The values the code gives to [status]. *)
Inductive status_t := normal | cancelled | error.

(** class TransferProgress.  [_cancelled] is the threading.Event. *)
Record t := mk {
  total_size : Z;
  current_size : Z;
  start_time : Q;
  operation : string;
  _last_update_time : Q;
  _last_size : Z;
  _speed_samples : list Q;
  speed : Q;
  progress : Q;
  estimated_time : Q;
  status : status_t;
  _cancelled : bool
}.

(** __init__(total_size, operation), the clock reading [clock]. *)
Definition init (total : Z) (op : string) (clock : Q) : t :=
  {| total_size := total; current_size := 0; start_time := clock;
     operation := op; _last_update_time := clock; _last_size := 0;
     _speed_samples := []; speed := 0; progress := 0; estimated_time := 0;
     status := normal; _cancelled := false |}.

(** update(bytes_transferred), the clock reading [current_time]. *)
Definition update (bytes_transferred : Z) (current_time : Q) (p : t) : t :=
  let cur := bytes_transferred in
  let time_diff := (current_time - _last_update_time p)%Q in
  if Qlt_bool 0 time_diff then
    let size_diff := cur - _last_size p in
    let instant_speed := (inject_Z size_diff / time_diff)%Q in
    let appended := (_speed_samples p ++ [instant_speed])%list in
    let samples :=
      if (5 <? length appended)%nat then tail appended else appended in
    let speed' := (Qsum samples / inject_Z (Z.of_nat (length samples)))%Q in
    let progress' :=
      if (0 <? total_size p)%Z
      then Qmin 100 (inject_Z cur / inject_Z (total_size p) * 100)%Q
      else 0%Q in
    let remaining_bytes := Z.max 0 (total_size p - cur) in
    let estimated_time' :=
      if Qlt_bool 0 speed' then (inject_Z remaining_bytes / speed')%Q
      else 0%Q in
    {| total_size := total_size p; current_size := cur;
       start_time := start_time p; operation := operation p;
       _last_update_time := current_time; _last_size := cur;
       _speed_samples := samples; speed := speed';
       progress := progress'; estimated_time := estimated_time';
       status := status p; _cancelled := _cancelled p |}
  else
    {| total_size := total_size p; current_size := cur;
       start_time := start_time p; operation := operation p;
       _last_update_time := _last_update_time p; _last_size := _last_size p;
       _speed_samples := _speed_samples p; speed := speed p;
       progress := progress p; estimated_time := estimated_time p;
       status := status p; _cancelled := _cancelled p |}.

Definition cancel (p : t) : t :=
  {| total_size := total_size p; current_size := current_size p;
     start_time := start_time p; operation := operation p;
     _last_update_time := _last_update_time p; _last_size := _last_size p;
     _speed_samples := _speed_samples p; speed := speed p;
     progress := progress p; estimated_time := estimated_time p;
     status := cancelled; _cancelled := true |}.

Definition is_cancelled (p : t) : bool := _cancelled p.

End TransferProgress.

Module TransferManager.

(** class TransferManager: the two dictionaries, both keyed by transfer
    id.  The TransferProgress objects are owned by [_transfers]; a caller
    holding one mutates it through its id. *)
Record t := mk {
  _transfers : gmap string TransferProgress.t;
  _cancel_flags : gmap string bool
}.

Definition init : t := {| _transfers := ∅; _cancel_flags := ∅ |}.

Definition cancel_transfer (transfer_id : string) (m : t) : bool * t :=
  match _transfers m !! transfer_id with
  | Some transfer =>
      (true,
       {| _transfers :=
            <[transfer_id := TransferProgress.cancel transfer]> (_transfers m);
          _cancel_flags := <[transfer_id := true]> (_cancel_flags m) |})
  | None => (false, m)
  end.

Definition is_cancelled (transfer_id : string) (m : t) : bool :=
  default false (_cancel_flags m !! transfer_id).

Definition create_transfer (transfer_id : string) (total_size : Z)
    (operation : string) (clock : Q) (m : t) : TransferProgress.t * t :=
  let progress := TransferProgress.init total_size operation clock in
  (progress,
   {| _transfers := <[transfer_id := progress]> (_transfers m);
      _cancel_flags := <[transfer_id := false]> (_cancel_flags m) |}).

Definition get_transfer (transfer_id : string) (m : t)
  : option TransferProgress.t :=
  _transfers m !! transfer_id.

Definition remove_transfer (transfer_id : string) (m : t) : t :=
  {| _transfers := delete transfer_id (_transfers m);
     _cancel_flags := delete transfer_id (_cancel_flags m) |}.

End TransferManager.

Module OptimizedFileTransfer.

Definition _calculate_buffer_size (file_size : Z) : Z :=
  if (1024 * 1024 * 1024 <? file_size)%Z then 16 * 1024 * 1024
  else if (100 * 1024 * 1024 <? file_size)%Z then 8 * 1024 * 1024
  else 1 * 1024 * 1024.

Definition _calculate_chunk_size (file_size : Z) : Z :=
  if (1024 * 1024 * 1024 <? file_size)%Z then 4 * 1024 * 1024
  else if (100 * 1024 * 1024 <? file_size)%Z then 2 * 1024 * 1024
  else 1 * 1024 * 1024.

Record t := mk {
  transfer_id : string;
  total_size : Z;
  current_size : Z;
  buffer_size : Z;
  chunk_size : Z;
  use_parallel : bool
}.

(** __init__(transfer_id, total_size) *)
Definition init (id : string) (total : Z) : t :=
  {| transfer_id := id; total_size := total; current_size := 0;
     buffer_size := _calculate_buffer_size total;
     chunk_size := _calculate_chunk_size total;
     use_parallel := (100 * 1024 * 1024 <? total)%Z |}.

End OptimizedFileTransfer.

(** *** Where the transfer routes create and feed their progress objects *)

(** The keys of the request body of /sftp_upload_file that decide how the
    request starts. *)
Record upload_data := mkUpload {
  chunkIndex : Z;
  isLastChunk : bool;
  transferId : string;
  totalSize : Z
}.

(** How [upload_file] leaves its opening lines: with the early
    {"status": "cancelled"} response, or into the body of the request, which
    works with [transfer] and [transfer_progress]. *)
Inductive upload_start :=
| respond_cancelled
| proceed (transfer : OptimizedFileTransfer.t)
          (transfer_progress : option TransferProgress.t).

(** upload_file, from the construction of [transfer] to the first
    cancellation test. *)
Definition upload_file_prologue (data : upload_data) (clock : Q)
    (m : TransferManager.t) : upload_start * TransferManager.t :=
  let transfer :=
    OptimizedFileTransfer.init (transferId data) (totalSize data) in
  let '(transfer_progress, m') :=
    if (chunkIndex data =? 0)%Z then
      let '(p, m1) :=
        TransferManager.create_transfer (transferId data) (totalSize data)
          "upload" clock m in
      (Some p, m1)
    else (TransferManager.get_transfer (transferId data) m, m) in
  match transfer_progress with
  | Some p =>
      if TransferProgress.is_cancelled p then (respond_cancelled, m')
      else (proceed transfer transfer_progress, m')
  | None => (proceed transfer transfer_progress, m')
  end.

(** download_file, after sftp.stat(path).st_size gave [file_size]: the
    sizing object and the progress object the generator works with. *)
Definition download_file_prologue (transfer_id : string) (file_size : Z)
    (clock : Q) (m : TransferManager.t)
  : OptimizedFileTransfer.t * TransferProgress.t * TransferManager.t :=
  let transfer := OptimizedFileTransfer.init transfer_id file_size in
  let '(transfer_progress, m') :=
    TransferManager.create_transfer transfer_id file_size "download" clock m in
  (transfer, transfer_progress, m').

(** upload_file's progress_callback(transferred, total), handed to
    sftp.putfo.  [None] is raise Exception("Transfer cancelled"). *)
Definition upload_progress_callback (transferred : Z) (clock : Q)
    (p : TransferProgress.t) : option TransferProgress.t :=
  let p' := TransferProgress.update transferred clock p in
  if TransferProgress.is_cancelled p' then None else Some p'.

(** download_file's progress_callback(transferred, total), handed to
    sftp.getfo; [current_size] is the cell current_size[0]. *)
Definition download_progress_callback (transferred : Z) (clock : Q)
    (current_size : Z) (p : TransferProgress.t)
  : option (Z * TransferProgress.t) :=
  if TransferProgress.is_cancelled p then None
  else
    let current_size' := current_size + transferred in
    Some (current_size', TransferProgress.update current_size' clock p).

(** A transfer as the sequence of its [update] calls: the byte count and
    the clock reading of each. *)
Definition updates (us : list (Z * Q)) (p : TransferProgress.t)
  : TransferProgress.t :=
  foldl (λ q u, TransferProgress.update u.1 u.2 q) p us.

(** The percentage as the specification words it: min(100,
    transferred/total*100) when the total is positive, 0 when it is 0. *)
Definition spec_percent (transferred total : Z) : Q :=
  if (0 <? total)%Z
  then Qmin 100 (inject_Z transferred / inject_Z total * 100)%Q
  else 0%Q.

(** ** Notions the properties are stated with *)

(** How many close requests of a trace were accepted, for one session id. *)
Fixpoint accepted_closes (decode : list Byte.byte → string)
    (session_id : string) (tr : list action) (st : state) : nat :=
  match tr with
  | [] => 0
  | a :: tr' =>
      (match a with
       | close_ssh req s =>
           if bool_decide (s = session_id) && close_accepted req s st
           then 1 else 0
       | _ => 0
       end + accepted_closes decode session_id tr' (step decode a st))%nat
  end.

(** Every registered session is recorded in the session set of its owner. *)
Definition owners_recorded (st : state) : Prop :=
  ∀ session_id session client,
    ssh_sessions st !! session_id = Some session →
    client_id session = Some client →
    ∃ owned, client_sessions st !! client = Some owned ∧ session_id ∈ owned.

(** An ssh_error event sent to the room of one client. *)
Definition is_error_for (client : string) (e : effect) : bool :=
  match e with
  | emit event _ _ (Some room) =>
      bool_decide (event = "ssh_error") && bool_decide (room = client)
  | _ => false
  end.

(** A call on a channel that writes to it or changes its terminal. *)
Definition is_channel_call (ch : nat) (e : effect) : bool :=
  match e with
  | channel_send c _ | channel_close c | resize_pty c _ _
  | update_environment c _ => bool_decide (c = ch)
  | _ => false
  end.

(** The session a successful open installs. *)
Definition opened_session (req : request) (ssh ch thread : nat) : SSHSession :=
  {| ssh_client := ssh; channel := ch; active := true;
     read_thread := thread; client_id := Some (sid req) |}.

(** *** Sample requests and states *)

Definition alice : request := {| sid := "alice" |}.
Definition bob : request := {| sid := "bob" |}.

(** alice has opened session "s1" on connection 1, channel 1. *)
Definition one_session : state :=
  handle_ssh_connection alice "s1" (Connected 1 1) initial_state.

(** A decoder to run sample traces with, and a pass that finds the channel
    open and silent. *)
Definition no_decode (data : list Byte.byte) : string := "".

Definition quiet : observation :=
  {| now := 0; polled := idle true; channel_open := true |}.

Definition hung_up : observation :=
  {| now := 0; polled := idle true; channel_open := false |}.

(** alice opens "s1" and closes it while its reader is running; the reader
    then makes its next pass and runs its [finally] block. *)
Definition client_close_trace : list action :=
  [open_ssh alice "s1" (Connected 1 1);
   reader_runs 0 quiet;
   close_ssh alice "s1";
   reader_runs 0 quiet;
   reader_runs 0 quiet].

(** The remote end hangs up on "s1"; alice closes the session afterwards. *)
Definition remote_close_trace : list action :=
  [open_ssh alice "s1" (Connected 1 1);
   reader_runs 0 quiet;
   reader_runs 0 hung_up;
   reader_runs 0 quiet].

(** Transfer "t" of 10 bytes was created and then cancelled. *)
Definition cancelled_transfer : TransferManager.t :=
  (TransferManager.cancel_transfer "t"
     (TransferManager.create_transfer "t" 10 "upload" 0
        TransferManager.init).2).2.

(** sftp.getfo calling download_file's progress_callback once per report,
    in order, until the callback raises. *)
Fixpoint getfo_callbacks (reports : list (Z * Q)) (current_size : Z)
    (p : TransferProgress.t) : option (Z * TransferProgress.t) :=
  match reports with
  | [] => Some (current_size, p)
  | (transferred, clock) :: rest =>
      match download_progress_callback transferred clock current_size p with
      | Some (current_size', p') => getfo_callbacks rest current_size' p'
      | None => None
      end
  end.

(** What holds of a progress object between any two calls: the percentage
    is the specification's formula at [_last_size], the byte count of the
    last update that saw the clock advance. *)
Definition progress_invariant (p : TransferProgress.t) : Prop :=
  (TransferProgress.progress p ==
     spec_percent (TransferProgress._last_size p)
       (TransferProgress.total_size p))%Q ∧
  (0 <= TransferProgress.progress p)%Q ∧
  (TransferProgress.progress p <= 100)%Q ∧
  (0 ≤ TransferProgress._last_size p)%Z ∧
  (0 ≤ TransferProgress.current_size p)%Z.

(** alice has opened a session whose id is the empty string. *)
Definition unnamed_session : state :=
  handle_ssh_connection alice "" (Connected 1 1) initial_state.

(** ** The rest of the transfer bookkeeping *)

(** The calls made on one TransferProgress object during its life. *)
Inductive progress_call :=
| call_update (bytes_transferred : Z) (clock : Q)
| call_cancel.

Definition progress_calls (cs : list progress_call) (p : TransferProgress.t)
  : TransferProgress.t :=
  foldl (λ q c,
           match c with
           | call_update b t => TransferProgress.update b t q
           | call_cancel => TransferProgress.cancel q
           end) p cs.

Definition is_call_cancel (c : progress_call) : bool :=
  match c with
  | call_cancel => true
  | call_update _ _ => false
  end.

(** The calls made on the global [transfer_manager]; the last one is
    [update] called on the object stored under an id by a request that got
    it from [create_transfer] or [get_transfer]. *)
Inductive manager_call :=
| call_create_transfer (transfer_id : string) (total_size : Z)
                       (operation : string) (clock : Q)
| call_cancel_transfer (transfer_id : string)
| call_remove_transfer (transfer_id : string)
| call_update_transfer (transfer_id : string) (bytes_transferred : Z)
                       (clock : Q).

Definition manager_call_apply (m : TransferManager.t) (c : manager_call)
  : TransferManager.t :=
  match c with
  | call_create_transfer transfer_id total_size operation clock =>
      (TransferManager.create_transfer transfer_id total_size operation
         clock m).2
  | call_cancel_transfer transfer_id =>
      (TransferManager.cancel_transfer transfer_id m).2
  | call_remove_transfer transfer_id =>
      TransferManager.remove_transfer transfer_id m
  | call_update_transfer transfer_id bytes_transferred clock =>
      {| TransferManager._transfers :=
           alter (TransferProgress.update bytes_transferred clock)
             transfer_id (TransferManager._transfers m);
         TransferManager._cancel_flags := TransferManager._cancel_flags m |}
  end.

Definition manager_calls (cs : list manager_call) (m : TransferManager.t)
  : TransferManager.t :=
  foldl manager_call_apply m cs.

(** The side table says of every id what the object stored under it says
    of itself. *)
Definition flags_agree (m : TransferManager.t) : Prop :=
  ∀ transfer_id : string,
    TransferManager._cancel_flags m !! transfer_id =
    TransferProgress._cancelled <$>
      (TransferManager._transfers m !! transfer_id).

(** /cancel_transfer/<transfer_id>: the HTTP status and the "status" field
    of the answer. *)
Definition cancel_transfer_route (transfer_id : string)
    (m : TransferManager.t) : (Z * string) * TransferManager.t :=
  let '(found, m') := TransferManager.cancel_transfer transfer_id m in
  if found then ((200, "success"), m') else ((404, "error"), m').

(** download_folder's progress_callback(transferred, _), handed to sftp.get
    for every file of the folder; [current_size] is the cell
    current_size[0], shared by all the files.  [None] is
    raise Exception("Transfer cancelled"). *)
Definition folder_progress_callback (transfer_id : string) (total_size : Z)
    (m : TransferManager.t) (transferred : Z) (clock : Q)
    (current_size : Z) (p : TransferProgress.t)
  : option (Z * TransferProgress.t) :=
  if TransferManager.is_cancelled transfer_id m then None
  else
    let current_size' := current_size + transferred in
    Some (current_size',
          TransferProgress.update (Z.min total_size current_size') clock p).

(** The callback called once per report, in order, until it raises. *)
Fixpoint folder_callbacks (transfer_id : string) (total_size : Z)
    (m : TransferManager.t) (reports : list (Z * Q)) (current_size : Z)
    (p : TransferProgress.t) : option (Z * TransferProgress.t) :=
  match reports with
  | [] => Some (current_size, p)
  | (transferred, clock) :: rest =>
      match folder_progress_callback transfer_id total_size m transferred
              clock current_size p with
      | Some (current_size', p') =>
          folder_callbacks transfer_id total_size m rest current_size' p'
      | None => None
      end
  end.

(** ** class PerformanceMonitor *)

Module PerformanceMonitor.

Record t := mk { metrics : gmap string (list Q) }.

Definition init : t := {| metrics := ∅ |}.

(** record_metric(name, value): append, then keep the last 1000. *)
Definition record_metric (name : string) (value : Q) (m : t) : t :=
  let appended := (default [] (metrics m !! name) ++ [value])%list in
  let kept :=
    if (1000 <? length appended)%nat
    then drop (length appended - 1000) appended
    else appended in
  {| metrics := <[name := kept]> (metrics m) |}.

(** get_metrics(): the mean of every list; [None] is the ZeroDivisionError
    of sum(v)/len(v) on an empty list. *)
Definition get_metrics (m : t) : option (gmap string Q) :=
  if bool_decide (map_Forall (λ _ v, v ≠ []) (metrics m))
  then Some ((λ v, Qsum v / inject_Z (Z.of_nat (length v)))%Q <$> metrics m)
  else None.

Definition record_all (calls : list (string * Q)) (m : t) : t :=
  foldl (λ acc c, record_metric c.1 c.2 acc) m calls.

End PerformanceMonitor.

(** The values recorded under one name, in the order of the calls. *)
Definition recorded_for (name : string) (calls : list (string * Q)) : list Q :=
  (filter (λ c, c.1 = name) calls).*2.

(** ** class SessionManager *)

Module SessionManager.

Record t := mk {
  _sessions : gmap string SSHSession;
  _client_sessions : gmap string (gset string)
}.

Definition init : t := {| _sessions := ∅; _client_sessions := ∅ |}.

Definition add_session (session_id : string) (session : SSHSession)
    (client : string) (m : t) : t :=
  {| _sessions := <[session_id := session]> (_sessions m);
     _client_sessions :=
       <[client := default ∅ (_client_sessions m !! client) ∪ {[session_id]}]>
         (_client_sessions m) |}.

(** remove_session(session_id): the set it cleans is the one of
    session.client_id; [set.discard] does not mind a missing element. *)
Definition remove_session (session_id : string) (m : t) : t :=
  match _sessions m !! session_id with
  | Some session =>
      {| _sessions := delete session_id (_sessions m);
         _client_sessions :=
           match client_id session with
           | Some client =>
               match _client_sessions m !! client with
               | Some owned =>
                   <[client := owned ∖ {[session_id]}]> (_client_sessions m)
               | None => _client_sessions m
               end
           | None => _client_sessions m
           end |}
  | None => m
  end.

Definition get_session (session_id : string) (m : t) : option SSHSession :=
  _sessions m !! session_id.

End SessionManager.

(** The calls made on a SessionManager. *)
Inductive session_call :=
| call_add_session (session_id : string) (session : SSHSession)
                   (client : string)
| call_remove_session (session_id : string).

Definition session_call_apply (m : SessionManager.t) (c : session_call)
  : SessionManager.t :=
  match c with
  | call_add_session session_id session client =>
      SessionManager.add_session session_id session client m
  | call_remove_session session_id =>
      SessionManager.remove_session session_id m
  end.

(** A caller that adds every session under the client the session itself
    names, as [handle_ssh_connection] does for [ssh_sessions]. *)
Definition adds_under_owner (c : session_call) : Prop :=
  match c with
  | call_add_session _ session client => client_id session = Some client
  | call_remove_session _ => True
  end.

(** The last 1000 elements of a list, all of it when it is shorter. *)
Definition last_1000 (l : list Q) : list Q := drop (length l - 1000) l.

(** Every session a SessionManager holds is in the set of the client the
    session names as its owner. *)
Definition manager_owners_recorded (m : SessionManager.t) : Prop :=
  ∀ session_id session client,
    SessionManager._sessions m !! session_id = Some session →
    client_id session = Some client →
    ∃ owned, SessionManager._client_sessions m !! client = Some owned ∧
             session_id ∈ owned.

(** ** find_free_port *)

Section FindFreePort.

(** Whether s.bind(('', port)) goes through; [false] is its OSError. *)
Variable can_bind : Z → bool.



End FindFreePort.

(** ** cleanup_temp_file *)

(** What os.unlink did. *)
Inductive unlink_outcome :=
| unlinked
| PermissionError
| FileNotFoundError
| unlink_error.

Section CleanupTempFile.

(** The outcome of os.unlink in the pass of the loop with the given value
    of [attempt]. *)
Variable unlink : nat → unlink_outcome.

(** The passes of [for attempt in range(max_retries)] from [attempt] on,
    [remaining] of them: how many times os.unlink was called in all, and
    whether one of the calls removed the file. *)
Fixpoint cleanup_passes (attempt remaining : nat) : nat * bool :=
  match remaining with
  | O => (attempt, false)
  | S remaining' =>
      match unlink attempt with
      | unlinked => (S attempt, true)
      | PermissionError => cleanup_passes (S attempt) remaining'
      | FileNotFoundError => (S attempt, false)
      | unlink_error => (S attempt, false)
      end
  end.

(** cleanup_temp_file(temp_file_path); [file_exists] is
    os.path.exists(temp_file_path). *)
Definition cleanup_temp_file (temp_file_path : option string)
    (file_exists : bool) : nat * bool :=
  if negb (truthy temp_file_path) || negb file_exists then (O, false)
  else cleanup_passes 0 3.

End CleanupTempFile.

(** ** The generator of download_file *)

(** f.read(size) on what is left of a file: at most [size] bytes, all of
    them for a negative size. *)
Definition file_read (size : Z) (rest : list Byte.byte) : list Byte.byte :=
  if (size <? 0)%Z then rest else take (Z.to_nat size) rest.

(** Whether the test of transfer_progress.is_cancelled() number [check] of
    a request sees the flag set, when [cancel_at] is the number of the first
    test that comes after the cancellation ([None]: it never comes). *)
Definition sees_cancel (cancel_at : option nat) (check : nat) : bool :=
  match cancel_at with
  | Some k => (k <=? check)%nat
  | None => false
  end.

(** The loop of generate() that re-reads the staging file: the chunks it
    yields, the last of them the empty chunk of the [except] branch when a
    test saw the cancellation.  [None] is running out of [fuel]. *)
Fixpoint stream_loop (fuel : nat) (chunk_size : Z) (rest : list Byte.byte)
    (check : nat) (cancel_at : option nat) : option (list (list Byte.byte)) :=
  match fuel with
  | O => None
  | S fuel' =>
      if sees_cancel cancel_at check then Some [[]]
      else
        let chunk := file_read chunk_size rest in
        match chunk with
        | [] => Some []
        | _ :: _ =>
            cons chunk <$>
              stream_loop fuel' chunk_size (drop (length chunk) rest)
                (S check) cancel_at
        end
  end.

(** What sftp.getfo does in generate(): how many times it calls
    progress_callback and whether it then returns ([false]: it raises an
    exception of its own). *)
Record pull := mkPull { pull_reports : nat; pull_returns : bool }.

(** What the consumer of the generator gets: the chunks yielded, and
    whether the generator then returned or raised. *)
Inductive generated :=
| yields (chunks : list (list Byte.byte))
| raises.

(** generate(): the pull of [remote] into the staging file, then the loop
    over the staging file.  Every progress_callback starts with a test of
    is_cancelled(); when getfo raises, the handler around it makes one
    more; the loop makes one per pass. *)
Definition generate (transfer : OptimizedFileTransfer.t)
    (remote : list Byte.byte) (p : pull) (cancel_at : option nat)
  : option generated :=
  if existsb (sees_cancel cancel_at) (seq 0 (pull_reports p)) then
    Some (yields [[]])
  else if negb (pull_returns p) then
    if sees_cancel cancel_at (pull_reports p) then Some (yields [[]])
    else Some raises
  else
    yields <$>
      stream_loop (S (length remote)) (OptimizedFileTransfer.chunk_size transfer)
        remote (pull_reports p) cancel_at.

(** No reader thread carries bytes over from one pass to the next. *)
Definition buffers_empty (st : state) : Prop :=
  Forall (λ r, r_buffer r = []) (threads st).


(** The reader of alice's session is in its loop, last active at time 0. *)
Definition reader_looping : state :=
  run no_decode
    [open_ssh alice "s1" (Connected 1 1); reader_runs 0 quiet] initial_state.

(** ** Opening connections: create_base_client and its two callers *)

(** The keys of a connection dictionary the three functions read;
    [authType], [password] and [privateKeyPath] may be missing. *)
Record connection := mkConnection {
  host : string;
  port : Z;
  username : string;
  authType : option string;
  password : option string;
  privateKeyPath : option string
}.

(** What is handed to ssh.connect besides host, port and user. *)
Inductive credential :=
| with_password (text : string)
| with_pkey (key : nat).

(** The exceptions the callers tell apart. *)
Inductive exception :=
| raise_ConnectionError (msg : string)
| raise_AuthenticationException
| raise_Exception (msg : string).

(** RSAKey.from_private_key_file(path) *)
Inductive key_file :=
| key_loaded (key : nat)
| key_SSHException
| key_IOError.

(** The calls made on the paramiko client [ssh] of one request. *)
Inductive client_call :=
| call_connect (hostname : string) (port : Z) (username : string)
               (timeout : Z) (c : credential)
| call_invoke_shell (term : string) (width height : Z)
                    (environment : list (string * string))
| call_tune_transport (keepalive : Z) (compression : bool)
                      (window_size rekey_bytes rekey_packets
                       default_max_packet_size : Z)
| call_open_sftp
| call_close.

Fixpoint equals_signs (n : nat) : string :=
  match n with
  | O => ""
  | S n' => String "="%char (equals_signs n')
  end.

(** password += '=' * ((4 - len(password) % 4) % 4) *)
Definition pad_password (password : string) : string :=
  password ++ equals_signs ((4 - String.length password mod 4) mod 4).

Section ConnectionFactory.

(** base64.b64decode(text).decode('utf-8'); [None] when either raises. *)
Variable b64decode_utf8 : string → option string.
(** The key file at a path. *)
Variable load_key : string → key_file.
(** ssh.connect with the keyword arguments collected: [None] when it
    returns. *)
Variable connect : string → Z → string → credential → option exception.
(** ssh.invoke_shell(...): the channel, or the exception. *)
Variable invoke_shell : exception + nat.
(** ssh.get_transport() is not None *)
Variable has_transport : bool.
(** ssh.open_sftp(): the sftp client, or the exception. *)
Variable open_sftp : exception + nat.

(** The part of create_base_client that fills connect_kwargs with the
    credential, or raises. *)
Definition choose_credential (c : connection) : exception + credential :=
  if bool_decide (authType c = Some "password") then
    match password c with
    | Some text =>
        match b64decode_utf8 (pad_password text) with
        | Some decoded => inr (with_password decoded)
        | None => inr (with_password text)
        end
    | None => inl (raise_Exception "'password'")
    end
  else
    match privateKeyPath c with
    | Some path =>
        if bool_decide (path = "") then
          inl (raise_Exception
                 "Private key path is required for key authentication")
        else
          match load_key path with
          | key_loaded key => inr (with_pkey key)
          | key_SSHException =>
              inl (raise_Exception
                     "Invalid private key format or passphrase required")
          | key_IOError => inl (raise_Exception "Failed to read private key file")
          end
    | None =>
        inl (raise_Exception
               "Private key path is required for key authentication")
    end.

(** create_base_client(connection): whether it returns its client or
    raises, and the calls it made on the client. *)
Definition create_base_client (c : connection)
  : option exception * list client_call :=
  match choose_credential c with
  | inl e => (Some e, [call_close])
  | inr cred =>
      let calls := [call_connect (host c) (port c) (username c) 30 cred] in
      match connect (host c) (port c) (username c) cred with
      | Some e => (Some e, calls ++ [call_close])%list
      | None => (None, calls)
      end
  end.

(** create_ssh_client(connection): the channel or the exception, and the
    calls made on the client; the settings of channel and transport that
    follow invoke_shell are taken to go through. *)
Definition create_ssh_client (c : connection)
  : (exception + nat) * list client_call :=
  match create_base_client c with
  | (Some e, calls) => (inl e, calls)
  | (None, calls) =>
      let calls1 :=
        (calls ++
         [call_invoke_shell "xterm-256color" 132 43
            [("TERM", "xterm-256color"); ("COLORTERM", "truecolor");
             ("TERM_PROGRAM", "xterm"); ("LANG", "en_US.UTF-8");
             ("LC_ALL", "en_US.UTF-8"); ("FORCE_COLOR", "true");
             ("COLUMNS", "132"); ("LINES", "43")]])%list in
      match invoke_shell with
      | inl e => (inl e, calls1 ++ [call_close])%list
      | inr ch =>
          (inr ch,
           if has_transport
           then (calls1 ++
                 [call_tune_transport 60 true 2147483647 (2 ^ 40) (2 ^ 40)
                    32768])%list
           else calls1)
      end
  end.

(** create_sftp_client(connection) *)
Definition create_sftp_client (c : connection)
  : (exception + nat) * list client_call :=
  match create_base_client c with
  | (Some e, calls) => (inl e, calls)
  | (None, calls) =>
      let calls1 := (calls ++ [call_open_sftp])%list in
      match open_sftp with
      | inl e => (inl e, calls1 ++ [call_close])%list
      | inr sftp => (inr sftp, calls1)
      end
  end.

(** What handle_ssh_connection makes of the outcome for the client handle
    [ssh]: its three [except] clauses. *)
Definition connect_result_of (ssh : nat) (r : exception + nat)
  : connect_result :=
  match r with
  | inr ch => Connected ssh ch
  | inl (raise_ConnectionError msg) => ConnectionError msg
  | inl raise_AuthenticationException => AuthenticationException
  | inl (raise_Exception msg) => OtherException msg
  end.

End ConnectionFactory.

Definition is_call_close (c : client_call) : bool :=
  match c with
  | call_close => true
  | _ => false
  end.

Definition is_call_connect (c : client_call) : bool :=
  match c with
  | call_connect _ _ _ _ _ => true
  | _ => false
  end.

(** ** upload_file, one request served on its own *)

(** The rest of the request body of /sftp_upload_file. *)
Record upload_request := mkUploadRequest {
  u_data : upload_data;
  u_content : option string;
  u_tempFileId : option string
}.

(** What the outside world does during one request. *)
Record upload_world := mkUploadWorld {
  w_clock : Q;                       (* the clock at create_transfer *)
  w_sftp : option string;            (* create_sftp_client raises: str(e) *)
  w_uuid : string;                   (* str(uuid.uuid4()) *)
  w_write_clock : Q;                 (* the clock at the update after the write *)
  w_put_reports : list (Z * Q);      (* the callbacks of sftp.putfo *)
  w_put : option string;             (* sftp.putfo raises: str(e) *)
  w_unlink : nat → unlink_outcome;   (* os.unlink, cleanup of [finally] *)
  w_unlink_outer : nat → unlink_outcome  (* os.unlink, cleanup of the outer
                                            [except] *)
}.

(** The registry of transfers and the staging files, by path. *)
Record upload_state := mkUploadState {
  u_manager : TransferManager.t;
  u_files : gmap string (list Byte.byte)
}.

(** What is raised in the body of a request. *)
Inductive upload_failure :=
| failed_with (msg : string)     (* create_sftp_client or sftp.putfo *)
| no_temp_file_id                (* os.path.join(temp_dir, None) *)
| bad_base64                     (* base64.b64decode raises *)
| no_staging_file (path : string).  (* open(temp_file_path, 'rb') raises *)

(** "Transfer cancelled" in str(e), the test of the inner [except]. The
    TypeError of os.path.join and the errors of base64.b64decode carry
    texts of the library that do not mention a cancellation; the
    FileNotFoundError of open() quotes the path. *)
Definition mentions_cancel (why : upload_failure) : bool :=
  let has (msg : string) : bool :=
    bool_decide (is_Some (String.index 0 "Transfer cancelled" msg)) in
  match why with
  | failed_with msg => has msg
  | no_temp_file_id => false
  | bad_base64 => false
  | no_staging_file path =>
      has ("[Errno 2] No such file or directory: '" ++ path ++ "'")
  end.

Inductive upload_response :=
| resp_cancelled
| resp_chunk_uploaded (tempFileId : option string)
| resp_success
| resp_error (why : upload_failure).

(** os.path.join(temp_dir, temp_file_id) for a plain file name, the
    directory written as its last component. *)
Definition temp_file_path_of (temp_file_id : string) : string :=
  "sftp_uploads/" ++ temp_file_id.

(** cleanup_temp_file(temp_file_path) on the staging files. *)
Definition cleanup_staging (unlink : nat → unlink_outcome)
    (temp_file_path : option string) (files : gmap string (list Byte.byte))
  : gmap string (list Byte.byte) :=
  match temp_file_path with
  | Some path =>
      if (cleanup_temp_file unlink temp_file_path
            (bool_decide (is_Some (files !! path)))).2
      then delete path files else files
  | None => files
  end.

(** sftp.putfo calling upload_file's progress_callback once per report;
    [None] is its raise Exception("Transfer cancelled"). *)
Fixpoint putfo_callbacks (reports : list (Z * Q)) (p : TransferProgress.t)
  : option TransferProgress.t :=
  match reports with
  | [] => Some p
  | (transferred, clock) :: rest =>
      match upload_progress_callback transferred clock p with
      | Some p' => putfo_callbacks rest p'
      | None => None
      end
  end.

(** How the write of one chunk ends. *)
Inductive write_outcome :=
| write_raised
| write_cancelled (st : upload_state)
| write_done (st : upload_state).

Section UploadFile.

(** base64.b64decode(content); [None] when it raises. *)
Variable b64decode : string → option (list Byte.byte).

(** The outer [except] of upload_file: cleanup, and the answer
    {"error": str(e)}, 500. *)
Definition upload_failed (why : upload_failure)
    (temp_file_path : option string) (transfer_id : string)
    (w : upload_world) (st : upload_state) : upload_response * upload_state :=
  (resp_error why,
   {| u_manager :=
        if truthy (Some transfer_id)
        then TransferManager.remove_transfer transfer_id (u_manager st)
        else u_manager st;
      u_files :=
        cleanup_staging (w_unlink_outer w) temp_file_path (u_files st) |}).

(** An exception [why] raised in the body, in state [st]: the inner
    [except] answers {"status": "cancelled"} when the text mentions a
    cancellation, and re-raises to the outer one otherwise. *)
Definition upload_raised (why : upload_failure)
    (temp_file_path : option string) (transfer_id : string)
    (w : upload_world) (st : upload_state) : upload_response * upload_state :=
  if mentions_cancel why then (resp_cancelled, st)
  else upload_failed why temp_file_path transfer_id w st.

(** The last chunk: sftp.putfo of the staging file, with the [finally]
    that cleans up whatever happens. *)
Definition upload_last_chunk (path : string) (transfer_id : string)
    (has_progress : bool) (w : upload_world) (st : upload_state)
  : upload_response * upload_state :=
  let finally_ (m : TransferManager.t) : upload_state :=
    {| u_manager := TransferManager.remove_transfer transfer_id m;
       u_files := cleanup_staging (w_unlink w) (Some path) (u_files st) |} in
  match u_files st !! path with
  | None =>
      upload_raised (no_staging_file path) (Some path) transfer_id w
        (finally_ (u_manager st))
  | Some _ =>
      let reported :=
        match TransferManager._transfers (u_manager st) !! transfer_id with
        | Some p =>
            if has_progress then
              match putfo_callbacks (w_put_reports w) p with
              | Some p' =>
                  Some {| TransferManager._transfers :=
                            <[transfer_id := p']>
                              (TransferManager._transfers (u_manager st));
                          TransferManager._cancel_flags :=
                            TransferManager._cancel_flags (u_manager st) |}
              | None => None
              end
            else Some (u_manager st)
        | None => Some (u_manager st)
        end in
      match reported with
      | None => (resp_cancelled, finally_ (u_manager st))
      | Some m =>
          match w_put w with
          | None => (resp_success, finally_ m)
          | Some e =>
              upload_raised (failed_with e) (Some path) transfer_id w
                (finally_ m)
          end
      end
  end.

(** upload_file(): one request, with no other request served in
    between. *)
Definition upload_file (req : upload_request) (w : upload_world)
    (st : upload_state) : upload_response * upload_state :=
  let data := u_data req in
  let transfer_id := transferId data in
  let '(start, m1) := upload_file_prologue data (w_clock w) (u_manager st) in
  let st1 := {| u_manager := m1; u_files := u_files st |} in
  match start with
  | respond_cancelled => (resp_cancelled, st1)
  | proceed transfer transfer_progress =>
      match w_sftp w with
      | Some e => upload_raised (failed_with e) None transfer_id w st1
      | None =>
          let temp_file_id :=
            if (chunkIndex data =? 0)%Z then Some (w_uuid w)
            else u_tempFileId req in
          match temp_file_id with
          | None => upload_raised no_temp_file_id None transfer_id w st1
          | Some id =>
              let path := temp_file_path_of id in
              let written :=
                if truthy (u_content req) then
                  match b64decode (default "" (u_content req)) with
                  | None => write_raised
                  | Some chunk_data =>
                      let file :=
                        (default [] (u_files st1 !! path) ++ chunk_data)%list in
                      let files := <[path := file]> (u_files st1) in
                      match transfer_progress with
                      | Some p =>
                          let p' :=
                            TransferProgress.update (Z.of_nat (length file))
                              (w_write_clock w) p in
                          let st2 :=
                            {| u_manager :=
                                 {| TransferManager._transfers :=
                                      <[transfer_id := p']>
                                        (TransferManager._transfers m1);
                                    TransferManager._cancel_flags :=
                                      TransferManager._cancel_flags m1 |};
                               u_files := files |} in
                          if TransferProgress.is_cancelled p'
                          then write_cancelled st2 else write_done st2
                      | None =>
                          write_done {| u_manager := m1; u_files := files |}
                      end
                  end
                else write_done st1 in
              match written with
              | write_raised =>
                  upload_raised bad_base64 (Some path) transfer_id w st1
              | write_cancelled st2 => (resp_cancelled, st2)
              | write_done st2 =>
                  if isLastChunk data then
                    upload_last_chunk path transfer_id
                      (bool_decide (is_Some transfer_progress)) w st2
                  else (resp_chunk_uploaded temp_file_id, st2)
              end
          end
      end
  end.

(** The chunks of one upload sent in order, none of them the last: chunk 0
    with no tempFileId, every later one with the tempFileId the answers
    carry. *)
Fixpoint upload_chunks (data : upload_data) (w : upload_world)
    (index : Z) (temp_file_id : option string) (contents : list string)
    (st : upload_state) : list upload_response * upload_state :=
  match contents with
  | [] => ([], st)
  | content :: rest =>
      let req :=
        mkUploadRequest
          (mkUpload index false (transferId data) (totalSize data))
          (Some content) temp_file_id in
      let '(resp, st') := upload_file req w st in
      let next_id :=
        match resp with
        | resp_chunk_uploaded id => id
        | _ => temp_file_id
        end in
      let '(resps, st'') :=
        upload_chunks data w (index + 1) next_id rest st' in
      (resp :: resps, st'')
  end.

End UploadFile.

(** The bytes of the chunks of an upload, decoded, end to end. *)
Definition decoded_chunks (b64decode : string → option (list Byte.byte))
    (contents : list string) : list Byte.byte :=
  concat ((λ c, default [] (b64decode c)) <$> contents).

(** A decoder for sample uploads: every text stands for its own length in
    bytes "a". *)
Definition sample_b64decode (content : string) : option (list Byte.byte) :=
  Some (replicate (String.length content) Byte.x61).

(** A world in which the connection, the transfer and the cleanup go
    through. *)
Definition kind_world : upload_world :=
  {| w_clock := 0; w_sftp := None; w_uuid := "u1"; w_write_clock := 1;
     w_put_reports := []; w_put := None;
     w_unlink := λ _, unlinked; w_unlink_outer := λ _, unlinked |}.

Definition empty_uploads : upload_state :=
  {| u_manager := TransferManager.init; u_files := ∅ |}.

(** Requests served one after the other, each in its own world. *)
Fixpoint upload_requests (b64decode : string → option (list Byte.byte))
    (reqs : list (upload_request * upload_world)) (st : upload_state)
  : list upload_response * upload_state :=
  match reqs with
  | [] => ([], st)
  | (req, w) :: rest =>
      let '(resp, st') := upload_file b64decode req w st in
      let '(resps, st'') := upload_requests b64decode rest st' in
      (resp :: resps, st'')
  end.

(** Sample requests of the upload "t1": a first chunk of a longer file, the
    chunk after it marked as the last, and a file sent as one chunk. *)
Definition first_chunk_request : upload_request :=
  mkUploadRequest (mkUpload 0 false "t1" 5) (Some "abc") None.

Definition second_chunk_request : upload_request :=
  mkUploadRequest (mkUpload 1 true "t1" 5) (Some "de") (Some "u1").


(** A connection that asks for key authentication and names no key, and
    an environment in which nothing else would work either. *)
Definition keyless : connection :=
  mkConnection "host" 22 "user" (Some "key") None None.

Definition no_utf8 (text : string) : option string := None.

Definition no_key (path : string) : key_file := key_IOError.

Definition unreachable (hostname : string) (port : Z) (username : string)
    (c : credential) : option exception :=
  Some (raise_ConnectionError "timed out").

(** ** Shutdown *)

(** cleanup_session(session), for the session object registered under
    [session_id]: channel and client are handles, hence truthy; the join of
    the reader thread waits at most a second and changes nothing. *)
Definition cleanup_session (session_id : string) (st : state) : state :=
  match ssh_sessions st !! session_id with
  | Some session =>
      if negb (active session) then st
      else
        perform [channel_close (channel session);
                 ssh_close (ssh_client session)]
          (with_sessions (<[session_id := set_active false session]>
                            (ssh_sessions st)) st)
  | None => st
  end.

(** The loop of the atexit hook cleanup() over ssh_sessions.items();
    [ids] are the keys in the order of the dictionary. *)
Definition cleanup (ids : list string) (st : state) : state :=
  foldl (λ s id, cleanup_session id s) st ids.

(** The calls cleanup_session makes for the session under an id. *)
Definition closes_of (st : state) (session_id : string) : list effect :=
  match ssh_sessions st !! session_id with
  | Some session =>
      if active session
      then [channel_close (channel session); ssh_close (ssh_client session)]
      else []
  | None => []
  end.

(** ** The cache of load_config *)

Module TTLCache.

Section Cache.

(** What the cached function returns. *)
Variable R : Type.

Record t := mk {
  cache : gmap string (R * Q);
  ttl : Q
}.

(** TTLCache(ttl) *)
Definition init (ttl : Q) : t := {| cache := ∅; ttl := ttl |}.

(** One call of wrapper at the clock reading [now]: [key] is
    str(args) + str(kwargs) and [func] what the wrapped function returns
    on these arguments when it is called.  The value returned, whether func was called, and
    the cache afterwards. *)
Definition wrapper (key : string) (now : Q) (func : R) (c : t)
  : R * bool * t :=
  let miss :=
    (func, true,
     {| cache := <[key := (func, now)]> (cache c); ttl := ttl c |}) in
  match cache c !! key with
  | Some (result, timestamp) =>
      if Qlt_bool (now - timestamp) (ttl c) then (result, false, c)
      else miss
  | None => miss
  end.

(** Calls of the wrapped function one after the other. *)
Fixpoint wrappers (calls : list (string * Q * R)) (c : t)
  : list (R * bool) * t :=
  match calls with
  | [] => ([], c)
  | (key, now, func) :: rest =>
      let '(result, called, c1) := wrapper key now func c in
      let '(outs, c2) := wrappers rest c1 in
      ((result, called) :: outs, c2)
  end.

(** In a history of calls and what became of them, the last call under
    [key] that ran the function: its value and its clock reading. *)
Definition last_run (key : string)
    (history : list ((string * Q * R) * (R * bool))) : option (R * Q) :=
  foldl (λ acc h,
           let '((k, now, _), (result, called)) := h in
           if called && bool_decide (k = key) then Some (result, now)
           else acc)
        None history.

End Cache.

Arguments mk {R}.
Arguments cache {R}.
Arguments ttl {R}.
Arguments init {R}.
Arguments wrapper {R}.
Arguments wrappers {R}.
Arguments last_run {R}.

End TTLCache.

(** The body of the loop of the first atexit hook (also named cleanup,
    registered before the other one): channel and connection are closed
    whether the session is active or not. *)
Definition closes_all (st : state) (session_id : string) : list effect :=
  match ssh_sessions st !! session_id with
  | Some session =>
      [channel_close (channel session); ssh_close (ssh_client session)]
  | None => []
  end.

Definition first_cleanup (ids : list string) (st : state) : state :=
  foldl (λ s id, perform (closes_all s id) s) st ids.

(** Interpreter exit: atexit runs its hooks last registered first. *)
Definition at_exit (ids : list string) (st : state) : state :=
  first_cleanup ids (cleanup ids st).

(** * Properties *)

#[local] Open Scope list_scope.

(** ** Opening a session *)

Lemma perform_perform es1 es2 st :
  perform es2 (perform es1 st) = perform (es1 ++ es2) st.
Proof.
  unfold perform; simpl. by rewrite <- app_assoc.
Qed.

Lemma perform_nil st : perform [] st = st.
Proof.
  destruct st; unfold perform; simpl. by rewrite app_nil_r.
Qed.

(** A branch of a handler that performs nothing. *)
Ltac silent := exists []; rewrite perform_nil.

Lemma open_failure_keeps_registry req session_id r st :
  (∀ ssh ch, r ≠ Connected ssh ch) →
  let st' := handle_ssh_connection req session_id r st in
  ssh_sessions st' = ssh_sessions st ∧
  client_sessions st' = client_sessions st ∧
  threads st' = threads st ∧
  ∃ fields, effects st' =
    effects st ++ [emit "ssh_error" session_id fields (Some (sid req))].
Proof.
  intros Hr. destruct r as [ssh ch| msg | | msg]; simpl.
  - by destruct (Hr ssh ch).
  - repeat split; eauto.
  - repeat split; eauto.
  - repeat split; eauto.
Qed.

(** C1 (as the code has it): [handle_ssh_connection] never looks the id up.
    Whenever the connection succeeds it stores a new session under the id,
    replacing whatever was registered there, owned by the calling client;
    it records the id in the client's session set, starts the reader thread
    on the new channel and sends ssh_connected to the caller's room. *)
Theorem open_registers_unconditionally req session_id ssh ch st :
  let st' := handle_ssh_connection req session_id (Connected ssh ch) st in
  let thread := length (threads st) in
  ssh_sessions st' !! session_id = Some (opened_session req ssh ch thread) ∧
  (∀ other : string, other ≠ session_id →
     ssh_sessions st' !! other = ssh_sessions st !! other) ∧
  (∃ owned, client_sessions st' !! sid req = Some owned ∧ session_id ∈ owned) ∧
  threads st' = threads st ++ [mkReader session_id ch 0 [] Starting] ∧
  effects st' = effects st ++
    [thread_start thread;
     emit "ssh_connected" session_id
       [("message", "Connected successfully")] (Some (sid req))].
Proof.
  simpl. repeat split.
  - by rewrite lookup_insert_eq.
  - intros other Hne. by rewrite lookup_insert_ne.
  - eexists. rewrite lookup_insert_eq. split; [done | set_solver].
Qed.

(** C1, the claim as stated fails: "s1" is registered for alice, bob opens
    "s1" again; the request is not rejected, the entry of alice is replaced
    by one owned by bob and bob gets the ssh_connected confirmation. *)
Lemma open_existing_id_replaces_session :
  let st := one_session in
  let st' := handle_ssh_connection bob "s1" (Connected 2 2) st in
  ssh_sessions st !! "s1" = Some (opened_session alice 1 1 0) ∧
  ssh_sessions st' !! "s1" = Some (opened_session bob 2 2 1) ∧
  ssh_sessions st' !! "s1" ≠ ssh_sessions st !! "s1" ∧
  effects st' = effects st ++
    [thread_start 1;
     emit "ssh_connected" "s1"
       [("message", "Connected successfully")] (Some "bob")].
Proof.
  repeat split; try (vm_compute; congruence); reflexivity.
Qed.

(** ** Close notifications *)

Lemma countb_app {A} (f : A → bool) l1 l2 :
  countb f (l1 ++ l2) = (countb f l1 + countb f l2)%nat.
Proof.
  induction l1 as [|x l1 IH]; simpl; [done | rewrite IH; lia].
Qed.

Lemma countb_insert {A} (f : A → bool) l i x y :
  l !! i = Some x →
  (countb f (<[i:=y]> l) + (if f x then 1 else 0) =
   countb f l + (if f y then 1 else 0))%nat.
Proof.
  revert i. induction l as [|z l IH]; intros [|i] Hi; simplify_eq/=.
  - lia.
  - specialize (IH i Hi). lia.
Qed.

Lemma closed_events_perform session_id es st :
  closed_events session_id (perform es st) =
  (closed_events session_id st + countb (is_closed_for session_id) es)%nat.
Proof. unfold closed_events; simpl. apply countb_app. Qed.

Lemma owners_recorded_initial : owners_recorded initial_state.
Proof. intros s session c Hs. simpl in Hs. by rewrite lookup_empty in Hs. Qed.

Lemma owners_recorded_ext st st' :
  ssh_sessions st' = ssh_sessions st →
  client_sessions st' = client_sessions st →
  owners_recorded st → owners_recorded st'.
Proof.
  intros Hs Hc Hinv s session c. rewrite Hs, Hc. apply Hinv.
Qed.

Lemma owners_recorded_open req session_id r st :
  owners_recorded st →
  owners_recorded (handle_ssh_connection req session_id r st).
Proof.
  intros Hinv. destruct r as [ssh ch | msg | | msg];
    try (by apply (owners_recorded_ext st)).
  intros s session c; simpl. intros Hs Hc.
  destruct (decide (s = session_id)) as [->|Hne].
  - rewrite lookup_insert_eq in Hs. simplify_eq/=.
    eexists. rewrite lookup_insert_eq. split; [done | set_solver].
  - rewrite lookup_insert_ne in Hs by done.
    destruct (Hinv s session c Hs Hc) as (owned & Ho & Hin).
    destruct (decide (c = sid req)) as [->|Hc'].
    + eexists. rewrite lookup_insert_eq. split; [done|].
      rewrite Ho; simpl. set_solver.
    + exists owned. by rewrite lookup_insert_ne.
Qed.

Lemma handle_ssh_input_effects req session_id input_data pasted last st :
  ∃ es, handle_ssh_input req session_id input_data pasted last st =
          perform es st ∧
        ∀ s, countb (is_closed_for s) es = 0%nat.
Proof.
  unfold handle_ssh_input.
  destruct (ssh_sessions st !! session_id) as [session|];
    [|by eexists; split].
  destruct (active session); simpl; [|by eexists; split].
  case_bool_decide; simpl; [|by eexists; split].
  destruct pasted; [|by eexists; split].
  destruct last; simpl; [by eexists; split|].
  rewrite perform_perform. by eexists; split.
Qed.

Lemma handle_resize_effects req data st :
  ∃ es, handle_resize req data st = perform es st ∧
        ∀ s, countb (is_closed_for s) es = 0%nat.
Proof.
  unfold handle_resize.
  destruct (rd_session_id data) as [session_id|]; simpl; [|by silent].
  case_bool_decide; simpl; [by silent|].
  destruct (ssh_sessions st !! session_id) as [session|];
    [by eexists; split | by silent].
Qed.

Lemma handle_ssh_close_accounting req s session_id st :
  owners_recorded st →
  let st' := handle_ssh_close req s st in
  owners_recorded st' ∧ threads st' = threads st ∧
  closed_events session_id st' =
    (closed_events session_id st +
     if bool_decide (s = session_id) && close_accepted req s st
     then 1 else 0)%nat.
Proof.
  intros Hinv. unfold handle_ssh_close, close_accepted.
  destruct (ssh_sessions st !! s) as [session|] eqn:Hs; simpl;
    [|rewrite andb_false_r; split_and!; [done..|lia]].
  case_bool_decide as Hown; simpl;
    [|rewrite andb_false_r; split_and!; [done..|lia]].
  destruct (Hinv s session (sid req) Hs Hown) as (owned & Ho & Hin).
  rewrite Ho. rewrite bool_decide_eq_true_2 by done.
  split_and!.
  - intros s' session' c; simpl. intros Hs' Hc'.
    rewrite delete_insert_eq in Hs'.
    destruct (decide (s' = s)) as [->|Hne];
      [by rewrite lookup_delete_eq in Hs'|].
    rewrite lookup_delete_ne in Hs' by done.
    destruct (Hinv s' session' c Hs' Hc') as (owned' & Ho' & Hin').
    destruct (decide (c = sid req)) as [->|Hc].
    + eexists. rewrite lookup_insert_eq. split; [done|].
      simplify_eq. set_solver.
    + exists owned'. by rewrite lookup_insert_ne.
  - done.
  - rewrite closed_events_perform; simpl.
    unfold closed_events; simpl. rewrite countb_app; simpl.
    rewrite andb_true_r. case_bool_decide; simpl; lia.
Qed.

Lemma owners_recorded_finally r st :
  owners_recorded st → owners_recorded (read_output_finally r st).
Proof.
  intros Hinv. unfold read_output_finally.
  destruct (ssh_sessions st !! r_session_id r) as [session|] eqn:Hs;
    [|by apply (owners_recorded_ext st)].
  intros s' session' c; simpl. intros Hs' Hc'.
  destruct (decide (s' = r_session_id r)) as [->|Hne].
  - rewrite lookup_insert_eq in Hs'. simplify_eq/=. by eapply Hinv.
  - rewrite lookup_insert_ne in Hs' by done. by eapply Hinv.
Qed.

Lemma closed_events_finally session_id r st :
  closed_events session_id (read_output_finally r st) =
  (closed_events session_id st +
   if bool_decide (r_session_id r = session_id) then 1 else 0)%nat.
Proof.
  unfold read_output_finally. rewrite closed_events_perform; simpl.
  destruct (ssh_sessions st !! r_session_id r); unfold closed_events; simpl;
    case_bool_decide; lia.
Qed.

Lemma threads_finally r st : threads (read_output_finally r st) = threads st.
Proof.
  unfold read_output_finally. by destruct (ssh_sessions st !! r_session_id r).
Qed.

(** A pass of the loop never emits a close notification and never ends the
    thread by itself: it goes on looping, or leaves for [finally]. *)
Lemma read_output_pass_quiet decode o r st :
  r_phase r = Looping →
  ∃ es, (read_output_pass decode o r st).2 = perform es st ∧
        (∀ s, countb (is_closed_for s) es = 0%nat) ∧
        r_session_id (read_output_pass decode o r st).1 = r_session_id r ∧
        (r_phase (read_output_pass decode o r st).1 = Looping ∨
         r_phase (read_output_pass decode o r st).1 = Leaving).
Proof.
  intros Hp. unfold read_output_pass, check_channel.
  destruct (negb _); simpl; [silent; by auto|].
  destruct (polled o) as [[[|b data]| |]|ok]; simpl.
  - silent. destruct (channel_open o); simpl; by auto.
  - eexists. split; [done|]. destruct (channel_open o); simpl; by auto.
  - silent; by auto.
  - silent; by auto.
  - destruct (Qlt_bool _ _); [destruct ok|]; simpl.
    + eexists. split; [done|]. destruct (channel_open o); simpl; by auto.
    + silent; by auto.
    + silent. destruct (channel_open o); simpl; by auto.
Qed.

(** Each of the causes makes the pass leave the loop: the session is gone
    or inactive, the read fails, the keepalive fails, or the channel or its
    transport is found closed at the end of the pass. *)
Lemma read_output_pass_leaves decode o r st :
  (match ssh_sessions st !! r_session_id r with
   | Some session => active session = false
   | None => True
   end ∨
   polled o = ready recv_error ∨
   (polled o = idle false ∧
    Qlt_bool 60 (now o - r_last_activity r) = true) ∨
   (channel_open o = false ∧ polled o ≠ ready recv_timeout)) →
  r_phase (read_output_pass decode o r st).1 = Leaving.
Proof.
  unfold read_output_pass, check_channel.
  destruct (ssh_sessions st !! r_session_id r) as [session|]; [|done].
  destruct (active session); simpl; [|done].
  intros [Hreg | [Herr | [[Hidle Hlate] | [Hclosed Hpoll]]]].
  - done.
  - by rewrite Herr.
  - by rewrite Hidle, Hlate.
  - rewrite Hclosed.
    destruct (polled o) as [[[|b data]| |]|ok]; simpl; try done.
    by destruct (Qlt_bool _ _); [destruct ok|].
Qed.

(** Once the loop is left, the thread's next step is its [finally] block:
    it marks the session inactive if it is still registered, sends the one
    ssh_closed event of this thread and ends. *)
Lemma read_output_finally_notifies decode o r st :
  r_phase r = Leaving →
  let r' := (read_output_step decode o r st).1 in
  let st' := (read_output_step decode o r st).2 in
  r_phase r' = Ended ∧
  effects st' = effects st ++
    [emit "ssh_closed" (r_session_id r)
       [("message", "Connection closed")] None] ∧
  (∀ session, ssh_sessions st !! r_session_id r = Some session →
     ssh_sessions st' !! r_session_id r = Some (set_active false session)) ∧
  read_output_step decode o r' st' = (r', st').
Proof.
  intros Hp. unfold read_output_step. rewrite Hp; simpl.
  unfold read_output_finally.
  destruct (ssh_sessions st !! r_session_id r) as [session|] eqn:Hs; simpl.
  - split_and!; try done. intros ? [= <-]. by rewrite lookup_insert_eq.
  - split_and!; try done.
Qed.

Lemma read_output_step_accounting decode session_id o r st :
  owners_recorded st →
  let r' := (read_output_step decode o r st).1 in
  let st' := (read_output_step decode o r st).2 in
  owners_recorded st' ∧ threads st' = threads st ∧
  (closed_events session_id st' +
     (if has_ended_for session_id r then 1 else 0) =
   closed_events session_id st +
     (if has_ended_for session_id r' then 1 else 0))%nat.
Proof.
  intros Hinv. unfold read_output_step, has_ended_for.
  destruct (r_phase r) eqn:Hp; simpl.
  - split_and!; [done..|lia].
  - destruct (read_output_pass_quiet decode o r st Hp)
      as (es & Hes & Hquiet & _ & Hphase).
    rewrite Hes. split_and!.
    + by apply (owners_recorded_ext st).
    + done.
    + rewrite closed_events_perform, Hquiet.
      destruct Hphase as [-> | ->]; lia.
  - split_and!.
    + by apply owners_recorded_finally.
    + apply threads_finally.
    + rewrite closed_events_finally. case_bool_decide; lia.
  - rewrite Hp. split_and!; [done..|lia].
Qed.

Lemma step_accounting decode session_id a st :
  owners_recorded st →
  owners_recorded (step decode a st) ∧
  (closed_events session_id (step decode a st) + ended_readers session_id st =
   closed_events session_id st + ended_readers session_id (step decode a st) +
   accepted_closes decode session_id [a] st)%nat.
Proof.
  intros Hinv.
  destruct a as [req s r | req s input pasted last | req s | req data
                | thread o]; simpl.
  - split; [by apply owners_recorded_open|].
    destruct r as [ssh ch | msg | | msg];
      try (unfold handle_ssh_connection; rewrite closed_events_perform;
           unfold ended_readers; simpl; lia).
    unfold closed_events, ended_readers; simpl.
    rewrite !countb_app; simpl. lia.
  - destruct (handle_ssh_input_effects req s input pasted last st)
      as (es & -> & Hq).
    split; [by apply (owners_recorded_ext st)|].
    rewrite closed_events_perform, Hq. unfold ended_readers; simpl. lia.
  - destruct (handle_ssh_close_accounting req s session_id st Hinv)
      as (Hinv' & Hth & Hcl).
    split; [done|]. rewrite Hcl. unfold ended_readers. rewrite Hth. lia.
  - destruct (handle_resize_effects req data st) as (es & -> & Hq).
    split; [by apply (owners_recorded_ext st)|].
    rewrite closed_events_perform, Hq. unfold ended_readers; simpl. lia.
  - destruct (threads st !! thread) as [r|] eqn:Hr; [|split; [done | lia]].
    destruct (read_output_step_accounting decode session_id o r st Hinv)
      as (Hinv' & Hth & Hcl).
    destruct (read_output_step decode o r st) as [r' st']; simpl in *.
    split; [by apply (owners_recorded_ext st')|].
    unfold ended_readers, closed_events in *; simpl. rewrite Hth.
    pose proof (countb_insert (has_ended_for session_id)
                  (threads st) thread r r' Hr).
    lia.
Qed.

Lemma run_accounting decode session_id tr st :
  owners_recorded st →
  (closed_events session_id (run decode tr st) + ended_readers session_id st =
   closed_events session_id st + ended_readers session_id (run decode tr st) +
   accepted_closes decode session_id tr st)%nat.
Proof.
  revert st. induction tr as [|a tr IH]; intros st Hinv; simpl; [lia|].
  destruct (step_accounting decode session_id a st Hinv) as [Hinv' Hstep].
  specialize (IH _ Hinv'). simpl in Hstep. lia.
Qed.

(** C2 (as the code has it): close notifications have two sources.  Every
    reader thread sends one when it ends, whatever made it leave its loop,
    and [handle_ssh_close] sends one of its own for every close request it
    accepts.  So in every execution from the empty service, the number of
    ssh_closed events of a session id is the number of its reader threads
    that have ended plus the number of accepted close requests for it. *)
Theorem closed_events_accounting decode tr session_id :
  closed_events session_id (run decode tr initial_state) =
  (ended_readers session_id (run decode tr initial_state) +
   accepted_closes decode session_id tr initial_state)%nat.
Proof.
  pose proof (run_accounting decode session_id tr initial_state
                owners_recorded_initial) as H.
  unfold closed_events at 2 in H. unfold ended_readers at 1 in H.
  simpl in H. lia.
Qed.

(** C2, the claim as stated fails: alice opens "s1" and closes it.  The
    close handler sends ssh_closed; the reader thread, finding the session
    gone on its next pass, leaves its loop and sends ssh_closed again. *)
Lemma client_close_notifies_twice :
  closed_events "s1" (run no_decode client_close_trace initial_state) = 2%nat ∧
  effects (run no_decode client_close_trace initial_state) =
    [thread_start 0;
     emit "ssh_connected" "s1"
       [("message", "Connected successfully")] (Some "alice");
     channel_close 1; ssh_close 1;
     emit "ssh_closed" "s1" [("message", "Connection closed")] None;
     emit "ssh_closed" "s1" [("message", "Connection closed")] None].
Proof. split; reflexivity. Qed.

(** When the remote end hangs up, the reader sends the one notification;
    the session stays registered, inactive, and a later close request of its
    owner sends a second one. *)
Lemma remote_close_notifies_once :
  let st := run no_decode remote_close_trace initial_state in
  closed_events "s1" st = 1%nat ∧
  active <$> ssh_sessions st !! "s1" = Some false ∧
  closed_events "s1" (step no_decode (close_ssh alice "s1") st) = 2%nat.
Proof. repeat split; reflexivity. Qed.

(** ** Closing a session *)

Lemma handle_ssh_close_unknown req session_id st :
  ssh_sessions st !! session_id = None →
  handle_ssh_close req session_id st = st.
Proof. intros H. unfold handle_ssh_close. by rewrite H. Qed.

Lemma handle_ssh_close_removes req session_id session st :
  ssh_sessions st !! session_id = Some session →
  client_id session = Some (sid req) →
  ssh_sessions (handle_ssh_close req session_id st) !! session_id = None.
Proof.
  intros Hs Hown. unfold handle_ssh_close. rewrite Hs.
  rewrite bool_decide_eq_true_2 by done. simpl.
  destruct (client_sessions st !! sid req) as [owned|]; [case_bool_decide|];
    simpl; by rewrite delete_insert_eq, lookup_delete_eq.
Qed.

(** C3 (as the code has it): a close request for a session that another
    client owns changes nothing and sends nothing, to the caller or to
    anyone: the session stays registered as it was and no call is made on
    its channel or connection.  The handler runs under the registry lock
    from its lookup to its last line, so two clients closing the same
    session are served one after the other; in either order the owner's
    request removes the session and the other one's is ignored. *)
Theorem close_by_non_owner_is_ignored owner other session_id session st :
  ssh_sessions st !! session_id = Some session →
  client_id session = Some (sid owner) →
  sid other ≠ sid owner →
  handle_ssh_close other session_id st = st ∧
  ssh_sessions (handle_ssh_close owner session_id st) !! session_id = None ∧
  handle_ssh_close other session_id (handle_ssh_close owner session_id st) =
    handle_ssh_close owner session_id st ∧
  handle_ssh_close owner session_id (handle_ssh_close other session_id st) =
    handle_ssh_close owner session_id st.
Proof.
  intros Hs Hown Hne.
  assert (Hother : handle_ssh_close other session_id st = st).
  { unfold handle_ssh_close. rewrite Hs.
    rewrite bool_decide_eq_false_2; [done|]. rewrite Hown. congruence. }
  pose proof (handle_ssh_close_removes owner session_id session st Hs Hown)
    as Hgone.
  split_and!; [done | done | | by rewrite Hother].
  by apply handle_ssh_close_unknown.
Qed.

(** bob and alice both ask to close the session of alice. *)
Lemma close_by_non_owner_is_ignored_witness :
  handle_ssh_close bob "s1" one_session = one_session ∧
  ssh_sessions (handle_ssh_close alice "s1" one_session) !! "s1" = None ∧
  handle_ssh_close bob "s1" (handle_ssh_close alice "s1" one_session) =
    handle_ssh_close alice "s1" one_session ∧
  handle_ssh_close alice "s1" (handle_ssh_close bob "s1" one_session) =
    handle_ssh_close alice "s1" one_session.
Proof.
  apply (close_by_non_owner_is_ignored alice bob "s1"
           (opened_session alice 1 1 0) one_session).
  - reflexivity.
  - reflexivity.
  - apply (bool_decide_unpack _). by vm_compute.
Defined.

(** C3, the claim as stated fails: bob asks to close the session of alice;
    the state is unchanged, and no ssh_error (nor any other event) is sent
    to bob. *)
Lemma close_by_non_owner_sends_no_error :
  let st' := handle_ssh_close bob "s1" one_session in
  st' = one_session ∧
  effects st' = effects one_session ∧
  countb (is_error_for "bob") (effects st') = 0%nat.
Proof. repeat split; reflexivity. Qed.

(** ** The transfer registry *)

Lemma cancel_transfer_sets_flag transfer_id p m :
  TransferManager.get_transfer transfer_id m = Some p →
  let r := TransferManager.cancel_transfer transfer_id m in
  r.1 = true ∧
  TransferManager.is_cancelled transfer_id r.2 = true ∧
  TransferManager.get_transfer transfer_id r.2 =
    Some (TransferProgress.cancel p).
Proof.
  unfold TransferManager.get_transfer, TransferManager.cancel_transfer,
    TransferManager.is_cancelled.
  intros ->; simpl. by rewrite !lookup_insert_eq.
Qed.

(** C4 (as the code has it): [remove_transfer] pops the id from both
    dictionaries.  After it, [is_cancelled] answers false and [get_transfer]
    answers None for that id, whatever the flag was before, and the entries
    of every other id are as they were; the flag of a cancelled transfer is
    true only from [cancel_transfer] until the transfer is removed. *)
Theorem remove_transfer_clears_flag transfer_id m :
  let m' := TransferManager.remove_transfer transfer_id m in
  TransferManager.is_cancelled transfer_id m' = false ∧
  TransferManager.get_transfer transfer_id m' = None ∧
  (∀ other : string, other ≠ transfer_id →
     TransferManager.is_cancelled other m' =
       TransferManager.is_cancelled other m ∧
     TransferManager.get_transfer other m' =
       TransferManager.get_transfer other m) ∧
  (∀ p, TransferManager.get_transfer transfer_id m = Some p →
     TransferManager.is_cancelled transfer_id
       (TransferManager.cancel_transfer transfer_id m).2 = true ∧
     TransferManager.is_cancelled transfer_id
       (TransferManager.remove_transfer transfer_id
          (TransferManager.cancel_transfer transfer_id m).2) = false).
Proof.
  unfold TransferManager.is_cancelled, TransferManager.get_transfer; simpl.
  split_and!.
  - by rewrite lookup_delete_eq.
  - by rewrite lookup_delete_eq.
  - intros other Hne. by rewrite !lookup_delete_ne.
  - intros p Hp.
    destruct (cancel_transfer_sets_flag transfer_id p m Hp) as (_ & Hc & _).
    split; [done|]. by rewrite lookup_delete_eq.
Qed.

(** C4, the claim as stated fails: transfer "t" is created and cancelled,
    its flag is set; once the transfer is removed, [is_cancelled] no longer
    recognises it. *)
Lemma removed_transfer_not_cancelled :
  TransferManager.is_cancelled "t" cancelled_transfer = true ∧
  TransferManager.is_cancelled "t"
    (TransferManager.remove_transfer "t" cancelled_transfer) = false.
Proof. split; reflexivity. Qed.

(** C9: [create_transfer] looks at nothing.  It stores a new progress
    object, zeroed and with status normal, under the id and sets the id's
    cancellation flag to false, whatever the registry held; in particular
    right after a cancellation of the same id.  A request of [upload_file]
    with chunkIndex 0 does just that before its cancellation test, so it is
    never answered "cancelled" there and the transfer goes on with the new
    object. *)
Theorem create_transfer_resets transfer_id total_size operation clock m :
  let r :=
    TransferManager.create_transfer transfer_id total_size operation clock m in
  let fresh := TransferProgress.init total_size operation clock in
  r.1 = fresh ∧
  TransferProgress.status fresh = TransferProgress.normal ∧
  TransferProgress.is_cancelled fresh = false ∧
  TransferManager.get_transfer transfer_id r.2 = Some fresh ∧
  TransferManager.is_cancelled transfer_id r.2 = false ∧
  (let cancelled := (TransferManager.cancel_transfer transfer_id m).2 in
   let again :=
     TransferManager.create_transfer transfer_id total_size operation clock
       cancelled in
   TransferManager.get_transfer transfer_id again.2 = Some fresh ∧
   TransferManager.is_cancelled transfer_id again.2 = false) ∧
  (∀ last : bool,
     let data := mkUpload 0 last transfer_id total_size in
     let started :=
       upload_file_prologue data clock
         (TransferManager.cancel_transfer transfer_id m).2 in
     let fresh_upload := TransferProgress.init total_size "upload" clock in
     started.1 =
       proceed (OptimizedFileTransfer.init transfer_id total_size)
         (Some fresh_upload) ∧
     TransferManager.get_transfer transfer_id started.2 = Some fresh_upload ∧
     TransferManager.is_cancelled transfer_id started.2 = false).
Proof.
  unfold TransferManager.is_cancelled, TransferManager.get_transfer,
    upload_file_prologue; simpl.
  split_and!; try done; try (by rewrite lookup_insert_eq).
  intros _. by rewrite !lookup_insert_eq.
Qed.

(** ** Transfer progress *)

Lemma spec_percent_bounds transferred total :
  (0 ≤ transferred)%Z →
  (0 <= spec_percent transferred total)%Q ∧
  (spec_percent transferred total <= 100)%Q.
Proof.
  intros Hpos. unfold spec_percent.
  destruct (0 <? total)%Z eqn:Htotal; [|split; [apply Qle_refl | done]].
  apply Z.ltb_lt in Htotal. split; [|apply Q.le_min_l].
  apply Q.min_glb; [done|].
  apply Qmult_le_0_compat; [|done].
  apply Qmult_le_0_compat.
  - rewrite <- (Zle_Qle 0). done.
  - apply Qinv_le_0_compat. rewrite <- (Zle_Qle 0). lia.
Qed.

Lemma progress_invariant_init total operation clock :
  progress_invariant (TransferProgress.init total operation clock).
Proof.
  unfold progress_invariant; simpl.
  split_and!; try done; try apply Qle_refl.
  unfold spec_percent. destruct (0 <? total)%Z eqn:Htotal; [|done].
  apply Z.ltb_lt in Htotal.
  destruct total as [|t|t]; try lia.
  assert (Hz : (inject_Z 0 / inject_Z (Z.pos t) * 100 == 0)%Q)
    by (unfold Qeq; simpl; lia).
  rewrite Q.min_r; [by rewrite Hz | rewrite Hz; done].
Qed.

Lemma update_current_size b t p :
  TransferProgress.current_size (TransferProgress.update b t p) = b.
Proof. unfold TransferProgress.update. by destruct (Qlt_bool _ _). Qed.

Lemma update_total_size b t p :
  TransferProgress.total_size (TransferProgress.update b t p) =
  TransferProgress.total_size p.
Proof. unfold TransferProgress.update. by destruct (Qlt_bool _ _). Qed.

(** An update that sees the clock advance recomputes the percentage; one
    that does not leaves it as it was. *)
Lemma update_progress b t p :
  TransferProgress.progress (TransferProgress.update b t p) =
  if Qlt_bool 0 (t - TransferProgress._last_update_time p)
  then spec_percent b (TransferProgress.total_size p)
  else TransferProgress.progress p.
Proof. unfold TransferProgress.update. by destruct (Qlt_bool _ _). Qed.

Lemma progress_invariant_update b t p :
  (0 ≤ b)%Z → progress_invariant p →
  progress_invariant (TransferProgress.update b t p).
Proof.
  intros Hb (Heq & Hlo & Hhi & Hlast & Hcur).
  unfold progress_invariant, TransferProgress.update.
  destruct (Qlt_bool _ _); simpl; [|done].
  destruct (spec_percent_bounds b (TransferProgress.total_size p) Hb)
    as [Hlo' Hhi'].
  split_and!; done.
Qed.

Lemma updates_snoc us u p :
  updates (us ++ [u]) p = TransferProgress.update u.1 u.2 (updates us p).
Proof. unfold updates. by rewrite foldl_app. Qed.

(** C5 (as the code has it): over any sequence of [update] calls with
    non-negative byte counts, [current_size] is the last count reported,
    not clamped to the total, so it is within 0..total as long as the
    reported counts are; the percentage is min(100, transferred/total*100)
    (0 when the total is not positive) taken at the count of the last update
    that saw the clock advance, so it stays within 0..100 but lags behind
    [current_size] when an update comes within the same clock reading as
    the one before. *)
Theorem progress_after_updates total operation clock us :
  Forall (λ u : Z * Q, (0 ≤ u.1)%Z) us →
  let p := updates us (TransferProgress.init total operation clock) in
  TransferProgress.total_size p = total ∧
  TransferProgress.current_size p = default 0%Z (last (us.*1)) ∧
  (0 ≤ TransferProgress.current_size p)%Z ∧
  ((0 ≤ total)%Z → Forall (λ u : Z * Q, (u.1 ≤ total)%Z) us →
   (TransferProgress.current_size p ≤ total)%Z) ∧
  (TransferProgress.progress p ==
     spec_percent (TransferProgress._last_size p) total)%Q ∧
  (0 <= TransferProgress.progress p)%Q ∧
  (TransferProgress.progress p <= 100)%Q ∧
  (∀ b t,
     TransferProgress.current_size (TransferProgress.update b t p) = b ∧
     TransferProgress.progress (TransferProgress.update b t p) =
       if Qlt_bool 0 (t - TransferProgress._last_update_time p)
       then spec_percent b total
       else TransferProgress.progress p).
Proof.
  intros Hus; simpl.
  assert (Hinv : progress_invariant
                   (updates us (TransferProgress.init total operation clock)) ∧
                 TransferProgress.total_size
                   (updates us (TransferProgress.init total operation clock))
                 = total ∧
                 TransferProgress.current_size
                   (updates us (TransferProgress.init total operation clock))
                 = default 0%Z (last (us.*1)) ∧
                 ((0 ≤ total)%Z →
                  Forall (λ u : Z * Q, (u.1 ≤ total)%Z) us →
                  (TransferProgress.current_size
                     (updates us
                        (TransferProgress.init total operation clock))
                   ≤ total)%Z)).
  { induction us as [|u us IH] using rev_ind.
    - split_and!; [apply progress_invariant_init | done | done | done].
    - apply Forall_app in Hus as [Hus Hu].
      apply Forall_inv in Hu.
      destruct (IH Hus) as (Hinv & Htot & _).
      rewrite updates_snoc. split_and!.
      + by apply progress_invariant_update.
      + by rewrite update_total_size.
      + rewrite update_current_size, fmap_app; simpl.
        by rewrite last_snoc.
      + intros _ Hle. apply Forall_app in Hle as [_ Hle].
        apply Forall_inv in Hle. by rewrite update_current_size. }
  destruct Hinv as ((Heq & Hlo & Hhi & _ & Hpos) & Htot & Hcur & Hle).
  rewrite Htot in Heq. split_and!; try done.
  intros b t. split; [apply update_current_size|].
  by rewrite update_progress, Htot.
Qed.

(** A download of 100 bytes reported at 50 and at 100 bytes. *)
Lemma progress_after_updates_witness :
  let p := updates [(50, 1%Q); (100, 2%Q)]
             (TransferProgress.init 100 "download" 0%Q) in
  TransferProgress.total_size p = 100 ∧
  TransferProgress.current_size p = 100 ∧
  (TransferProgress.progress p ==
     spec_percent (TransferProgress._last_size p) 100)%Q ∧
  (TransferProgress.progress p == 100)%Q ∧
  (0 <= TransferProgress.progress p)%Q ∧
  (TransferProgress.progress p <= 100)%Q.
Proof.
  pose proof (progress_after_updates 100 "download" 0%Q
                [(50, 1%Q); (100, 2%Q)]) as H.
  simpl in H.
  destruct H as (H1 & H2 & _ & _ & H3 & H4 & H5 & _).
  - repeat constructor; simpl; lia.
  - split_and!; try assumption; reflexivity.
Defined.

(** C5, the claim as stated fails, in both of its parts.  An update that
    comes at the clock reading of the one before (here, of the creation)
    stores the byte count but not the percentage: 50 of 100 bytes, 0 percent.
    And [update] takes a byte count above the total as it is: 150 of 100
    bytes. *)
Lemma progress_snapshot_off :
  (let p := updates [(50, 0%Q)] (TransferProgress.init 100 "upload" 0%Q) in
   TransferProgress.current_size p = 50 ∧
   TransferProgress.progress p = 0%Q ∧
   (spec_percent 50 100 == 50)%Q ∧
   ¬ (TransferProgress.progress p == spec_percent 50 100)%Q) ∧
  (let p := updates [(150, 1%Q)] (TransferProgress.init 100 "download" 0%Q) in
   TransferProgress.current_size p = 150 ∧
   TransferProgress.total_size p = 100 ∧
   ¬ (TransferProgress.current_size p ≤ TransferProgress.total_size p)%Z).
Proof.
  split; simpl.
  - split_and!; [reflexivity | reflexivity | reflexivity |].
    intros H. vm_compute in H. discriminate H.
  - split_and!; [reflexivity | reflexivity |].
    vm_compute. intros H. by apply H.
Qed.

(** download_file's callback adds up what sftp.getfo reports, and getfo
    reports the bytes transferred so far: for a file of 65536 bytes that
    arrives in two blocks the count ends at 98304.  upload_file's callback
    passes the same kind of report to [update] unchanged. *)
Lemma download_callback_adds_running_totals :
  let p0 := TransferProgress.init 65536 "download" 0%Q in
  fst <$> getfo_callbacks [(32768, 1%Q); (65536, 2%Q)] 0 p0 = Some 98304 ∧
  TransferProgress.current_size <$>
    (snd <$> getfo_callbacks [(32768, 1%Q); (65536, 2%Q)] 0 p0) = Some 98304 ∧
  TransferProgress.current_size <$>
    (upload_progress_callback 32768 1%Q p0
       ≫= upload_progress_callback 65536 2%Q) = Some 65536.
Proof. repeat split; reflexivity. Qed.

(** ** Input *)

Lemma ssh_input_writes_at req session_id input_data is_pasted is_last_line
    session st :
  ssh_sessions st !! session_id = Some session →
  active session = true →
  client_id session = Some (sid req) →
  handle_ssh_input req session_id input_data is_pasted is_last_line st =
  perform
    (channel_send (channel session) input_data ::
     if is_pasted && negb is_last_line
     then [channel_send (channel session) LF] else [])
    st.
Proof.
  intros Hs Hact Hown. unfold handle_ssh_input. rewrite Hs, Hact; simpl.
  rewrite bool_decide_eq_true_2 by done; simpl.
  destruct is_pasted, is_last_line; simpl; try done.
  by rewrite perform_perform.
Qed.

(** C6: for an active session owned by the caller, pasted input is sent to
    the channel as it is, followed by a newline exactly when it is not
    marked as the last line; input that is not pasted is sent as it is and
    nothing more.  Nothing else happens. *)
Theorem ssh_input_writes req session_id input_data is_last_line session st :
  ssh_sessions st !! session_id = Some session →
  active session = true →
  client_id session = Some (sid req) →
  handle_ssh_input req session_id input_data true is_last_line st =
    perform
      (channel_send (channel session) input_data ::
       if is_last_line then [] else [channel_send (channel session) LF])
      st ∧
  handle_ssh_input req session_id input_data false is_last_line st =
    perform [channel_send (channel session) input_data] st.
Proof.
  intros Hs Hact Hown.
  rewrite !(ssh_input_writes_at req session_id input_data _ is_last_line
              session st Hs Hact Hown).
  by destruct is_last_line.
Qed.

(** alice types and pastes "ls" into session "s1". *)
Lemma ssh_input_writes_witness :
  (handle_ssh_input alice "s1" "ls" true false one_session =
     perform [channel_send 1 "ls"; channel_send 1 LF] one_session ∧
   handle_ssh_input alice "s1" "ls" false false one_session =
     perform [channel_send 1 "ls"] one_session) ∧
  (handle_ssh_input alice "s1" "ls" true true one_session =
     perform [channel_send 1 "ls"] one_session ∧
   handle_ssh_input alice "s1" "ls" false true one_session =
     perform [channel_send 1 "ls"] one_session).
Proof.
  split.
  - apply (ssh_input_writes alice "s1" "ls" false
             (opened_session alice 1 1 0) one_session); reflexivity.
  - apply (ssh_input_writes alice "s1" "ls" true
             (opened_session alice 1 1 0) one_session); reflexivity.
Defined.

(** ** Resize *)

Lemma handle_resize_unknown req data st :
  (∀ session_id, rd_session_id data = Some session_id →
     ssh_sessions st !! session_id = None) →
  handle_resize req data st = st.
Proof.
  intros H. unfold handle_resize.
  destruct (rd_session_id data) as [session_id|]; [|done].
  rewrite (H session_id eq_refl). by destruct (negb _).
Qed.

(** C7 (as the code has it): a resize whose session id is not empty and
    names a registered session asks the session's channel for a
    pseudo-terminal of max(80, min(cols, 500)) columns and max(24,
    min(rows, 200)) rows and sets COLUMNS and LINES to these two numbers, in
    decimal; the numbers lie in 80..500 and 24..200.  A resize for an id that
    is not registered, or for the empty id, changes nothing and sends
    nothing. *)
Theorem handle_resize_applies_clamped :
  (∀ req session_id cols rows session st,
     session_id ≠ "" →
     ssh_sessions st !! session_id = Some session →
     let width := Z.max 80 (Z.min cols 500) in
     let height := Z.max 24 (Z.min rows 200) in
     handle_resize req (mkResize (Some session_id) (Some cols) (Some rows)) st
     = perform [resize_pty (channel session) width height;
                update_environment (channel session)
                  [("COLUMNS", pretty width); ("LINES", pretty height)]] st ∧
     (80 ≤ width ≤ 500)%Z ∧ (24 ≤ height ≤ 200)%Z) ∧
  (∀ req unknown cols rows st,
     ssh_sessions st !! unknown = None →
     handle_resize req (mkResize (Some unknown) cols rows) st = st) ∧
  (∀ req cols rows st,
     handle_resize req (mkResize (Some "") cols rows) st = st).
Proof.
  split_and!.
  - intros req session_id cols rows session st Hne Hs; simpl.
    split_and!; try lia.
    unfold handle_resize; simpl.
    rewrite bool_decide_eq_false_2 by done; simpl. by rewrite Hs.
  - intros req unknown cols rows st Hnone. apply handle_resize_unknown; simpl.
    by intros ? [= <-].
  - done.
Qed.

(** resize(10000, 10000) applies (500, 200). *)
Lemma handle_resize_applies_clamped_witness :
  handle_resize bob (mkResize (Some "s1") (Some 10000) (Some 10000))
    one_session =
  perform [resize_pty 1 500 200;
           update_environment 1 [("COLUMNS", "500"); ("LINES", "200")]]
    one_session.
Proof.
  apply (proj1 handle_resize_applies_clamped bob "s1" 10000 10000
           (opened_session alice 1 1 0) one_session).
  - apply (bool_decide_unpack _). by vm_compute.
  - reflexivity.
Defined.

(** C7, the claim as stated fails: the empty string is a session id like
    any other for [handle_ssh_connection], but [handle_resize] returns at
    once on it; the session is registered and no size is applied. *)
Lemma resize_of_empty_id_ignored :
  ssh_sessions unnamed_session !! "" = Some (opened_session alice 1 1 0) ∧
  handle_resize alice (mkResize (Some "") (Some 100) (Some 30))
    unnamed_session = unnamed_session ∧
  countb (is_channel_call 1)
    (effects (handle_resize alice (mkResize (Some "") (Some 100) (Some 30))
                unnamed_session)) = 0%nat.
Proof. repeat split; reflexivity. Qed.

(** C10: [handle_resize] never reads request.sid: two requests that differ
    only in the calling client have the same effect, on every state.  So a
    client that does not own a registered session resizes it all the same,
    whereas its input is refused with an ssh_error and nothing is written,
    and its close request is ignored. *)
Theorem resize_ignores_caller :
  (∀ req1 req2 data st,
     handle_resize req1 data st = handle_resize req2 data st) ∧
  (∀ owner other session_id cols rows session st,
     session_id ≠ "" →
     ssh_sessions st !! session_id = Some session →
     active session = true →
     client_id session = Some (sid owner) →
     sid other ≠ sid owner →
     handle_resize other
       (mkResize (Some session_id) (Some cols) (Some rows)) st =
       perform [resize_pty (channel session)
                  (Z.max 80 (Z.min cols 500)) (Z.max 24 (Z.min rows 200));
                update_environment (channel session)
                  [("COLUMNS", pretty (Z.max 80 (Z.min cols 500)));
                   ("LINES", pretty (Z.max 24 (Z.min rows 200)))]] st ∧
     (∀ input_data is_pasted is_last_line,
        handle_ssh_input other session_id input_data is_pasted is_last_line st
        = perform [emit "ssh_error" session_id
                     [("error", "Session belongs to another client")]
                     (Some (sid other))] st ∧
        handle_ssh_input owner session_id input_data is_pasted is_last_line st
        = perform
            (channel_send (channel session) input_data ::
             if is_pasted && negb is_last_line
             then [channel_send (channel session) LF] else [])
            st) ∧
     handle_ssh_close other session_id st = st ∧
     ssh_sessions (handle_ssh_close owner session_id st) !! session_id = None).
Proof.
  split; [done|].
  intros owner other session_id cols rows session st Hne Hs Hact Hown Hother.
  split_and!.
  - unfold handle_resize; simpl.
    rewrite bool_decide_eq_false_2 by done; simpl. by rewrite Hs.
  - intros input_data is_pasted is_last_line. split.
    + unfold handle_ssh_input. rewrite Hs, Hact; simpl.
      rewrite bool_decide_eq_false_2; [done|]. rewrite Hown. congruence.
    + by apply ssh_input_writes_at.
  - unfold handle_ssh_close. rewrite Hs.
    rewrite bool_decide_eq_false_2; [done|]. rewrite Hown. congruence.
  - by eapply handle_ssh_close_removes.
Qed.

(** bob resizes the session of alice; bob's input and close are refused. *)
Lemma resize_ignores_caller_witness :
  handle_resize bob (mkResize (Some "s1") (Some 100) (Some 30)) one_session =
    handle_resize alice (mkResize (Some "s1") (Some 100) (Some 30))
      one_session ∧
  handle_resize bob (mkResize (Some "s1") (Some 100) (Some 30)) one_session =
    perform [resize_pty 1 100 30;
             update_environment 1 [("COLUMNS", "100"); ("LINES", "30")]]
      one_session ∧
  handle_ssh_input bob "s1" "ls" false false one_session =
    perform [emit "ssh_error" "s1"
               [("error", "Session belongs to another client")] (Some "bob")]
      one_session ∧
  handle_ssh_close bob "s1" one_session = one_session.
Proof.
  destruct resize_ignores_caller as [Hsame Hcontrast].
  destruct (Hcontrast alice bob "s1" 100 30
              (opened_session alice 1 1 0) one_session)
    as (Hresize & Hinput & Hclose & _).
  - apply (bool_decide_unpack _). by vm_compute.
  - reflexivity.
  - reflexivity.
  - reflexivity.
  - apply (bool_decide_unpack _). by vm_compute.
  - split_and!.
    + apply Hsame.
    + exact Hresize.
    + exact (proj1 (Hinput "ls" false false)).
    + exact Hclose.
Defined.

(** ** Buffer and chunk sizes *)

(** C8: [OptimizedFileTransfer] picks a buffer of 16 MiB and chunks of 4 MiB
    for a file above 1 GiB, 8 MiB and 2 MiB for a file above 100 MiB and up
    to 1 GiB, and 1 MiB for both otherwise; [upload_file] sizes its transfer
    by the declared total, [download_file] by the size of the remote file,
    both through the same constructor. *)
Theorem sizing_policy (s : Z) :
  let buffer := OptimizedFileTransfer._calculate_buffer_size s in
  let chunk := OptimizedFileTransfer._calculate_chunk_size s in
  ((1073741824 < s)%Z → buffer = 16777216 ∧ chunk = 4194304) ∧
  ((104857600 < s ≤ 1073741824)%Z → buffer = 8388608 ∧ chunk = 2097152) ∧
  ((s ≤ 104857600)%Z → buffer = 1048576 ∧ chunk = 1048576) ∧
  (∀ index last transfer_id clock m transfer progress,
     (upload_file_prologue (mkUpload index last transfer_id s) clock m).1 =
       proceed transfer progress →
     OptimizedFileTransfer.buffer_size transfer = buffer ∧
     OptimizedFileTransfer.chunk_size transfer = chunk) ∧
  (∀ transfer_id clock m,
     let transfer := (download_file_prologue transfer_id s clock m).1.1 in
     OptimizedFileTransfer.buffer_size transfer = buffer ∧
     OptimizedFileTransfer.chunk_size transfer = chunk).
Proof.
  simpl. unfold OptimizedFileTransfer._calculate_buffer_size,
    OptimizedFileTransfer._calculate_chunk_size.
  split_and!.
  - intros H. rewrite (proj2 (Z.ltb_lt _ _)) by lia. done.
  - intros H. rewrite (proj2 (Z.ltb_ge _ _)) by lia.
    rewrite (proj2 (Z.ltb_lt _ _)) by lia. done.
  - intros H. rewrite !(proj2 (Z.ltb_ge _ _)) by lia. done.
  - intros index last transfer_id clock m transfer progress.
    unfold upload_file_prologue; simpl.
    destruct (index =? 0)%Z; simpl.
    + intros [= <- _]. done.
    + destruct (TransferManager.get_transfer transfer_id m) as [p|];
        [destruct (TransferProgress.is_cancelled p)|];
        intros [= <- _] || discriminate; done.
  - done.
Qed.

(** Files of 2 GiB, 500 MiB and 4 KiB. *)
Lemma sizing_policy_witness :
  OptimizedFileTransfer._calculate_buffer_size 2147483648 = 16777216 ∧
  OptimizedFileTransfer._calculate_chunk_size 2147483648 = 4194304 ∧
  OptimizedFileTransfer._calculate_buffer_size 524288000 = 8388608 ∧
  OptimizedFileTransfer._calculate_chunk_size 524288000 = 2097152 ∧
  OptimizedFileTransfer._calculate_buffer_size 4096 = 1048576 ∧
  OptimizedFileTransfer._calculate_chunk_size 4096 = 1048576.
Proof.
  destruct (sizing_policy 2147483648) as (H1 & _).
  destruct (sizing_policy 524288000) as (_ & H2 & _).
  destruct (sizing_policy 4096) as (_ & _ & H3 & _).
  destruct H1 as [? ?]; [lia|].
  destruct H2 as [? ?]; [lia|].
  destruct H3 as [? ?]; [lia|].
  repeat split; assumption.
Defined.

(** * Further properties of the code *)

(** ** TransferProgress over its whole life *)

Lemma progress_calls_snoc cs c p :
  progress_calls (cs ++ [c]) p =
  match c with
  | call_update b t => TransferProgress.update b t (progress_calls cs p)
  | call_cancel => TransferProgress.cancel (progress_calls cs p)
  end.
Proof. unfold progress_calls. by rewrite foldl_app. Qed.

Lemma Qlt_bool_true x y : Qlt_bool x y = true → (x < y)%Q.
Proof.
  unfold Qlt_bool. intros H. apply negb_true_iff in H.
  apply Qnot_le_lt. intros Hle. apply Qle_bool_iff in Hle. congruence.
Qed.

(** X1: whatever calls a TransferProgress receives after its creation, its
    window of speed samples never holds more than 5 of them, the reported
    speed is 0 while the window is empty and the arithmetic mean of the
    window afterwards, and the estimated time is never negative. *)
Theorem speed_window_and_eta total operation clock cs :
  let p := progress_calls cs (TransferProgress.init total operation clock) in
  let samples := TransferProgress._speed_samples p in
  (length samples ≤ 5)%nat ∧
  TransferProgress.speed p =
    match samples with
    | [] => 0%Q
    | _ :: _ => (Qsum samples / inject_Z (Z.of_nat (length samples)))%Q
    end ∧
  (0 <= TransferProgress.estimated_time p)%Q.
Proof.
  simpl. induction cs as [|c cs IH] using rev_ind.
  - simpl. split_and!; [lia | done | apply Qle_refl].
  - rewrite progress_calls_snoc.
    set (p := progress_calls cs _) in *.
    destruct IH as (Hlen & Hspeed & Heta).
    destruct c as [b t|]; [|done].
    unfold TransferProgress.update.
    destruct (Qlt_bool 0 (t - _)); simpl; [|done].
    set (appended := TransferProgress._speed_samples p ++ _).
    assert (Happ : length appended = S (length (TransferProgress._speed_samples p)))
      by (unfold appended; rewrite length_app; simpl; lia).
    set (samples := if (5 <? length appended)%nat then tail appended
                    else appended).
    assert (Hs : (0 < length samples ≤ 5)%nat).
    { unfold samples. destruct (5 <? length appended)%nat eqn:H5.
      - apply Nat.ltb_lt in H5. destruct appended; simpl in *; lia.
      - apply Nat.ltb_ge in H5. lia. }
    split_and!; [lia | |].
    + destruct samples; [simpl in Hs; lia | done].
    + destruct (Qlt_bool 0 _) eqn:Hpos; [|apply Qle_refl].
      apply Qlt_bool_true in Hpos.
      apply Qmult_le_0_compat.
      * rewrite <- (Zle_Qle 0). lia.
      * apply Qinv_le_0_compat. by apply Qlt_le_weak.
Qed.

(** X2: the status of a TransferProgress is decided by one thing only,
    whether [cancel] was ever called on it: it is cancelled, with the
    cancellation event set, from the first [cancel] on and for good, and
    normal before; no call ever gives it the status error. *)
Theorem status_follows_cancel total operation clock cs :
  let p := progress_calls cs (TransferProgress.init total operation clock) in
  TransferProgress.status p =
    (if existsb is_call_cancel cs
     then TransferProgress.cancelled else TransferProgress.normal) ∧
  TransferProgress.is_cancelled p = existsb is_call_cancel cs ∧
  TransferProgress.status p ≠ TransferProgress.error.
Proof.
  simpl.
  assert (H : TransferProgress.status
                (progress_calls cs
                   (TransferProgress.init total operation clock)) =
              (if existsb is_call_cancel cs
               then TransferProgress.cancelled else TransferProgress.normal) ∧
              TransferProgress.is_cancelled
                (progress_calls cs
                   (TransferProgress.init total operation clock)) =
              existsb is_call_cancel cs).
  { induction cs as [|c cs IH] using rev_ind; [done|].
    rewrite progress_calls_snoc, existsb_app; simpl.
    destruct IH as [Hst Hc]. destruct c as [b t|]; simpl.
    - rewrite !orb_false_r. unfold TransferProgress.update.
      by destruct (Qlt_bool _ _).
    - by rewrite !orb_true_r. }
  destruct H as [Hst Hc]. split_and!; [done | done |].
  rewrite Hst. by destruct (existsb _ _).
Qed.

(** ** The transfer registry over its whole life *)

Lemma flags_agree_apply m c : flags_agree m → flags_agree (manager_call_apply m c).
Proof.
  intros Hm id.
  destruct c as [tid total op clock | tid | tid | tid b t]; simpl.
  - destruct (decide (tid = id)) as [->|Hne].
    + by rewrite !lookup_insert_eq.
    + by rewrite !lookup_insert_ne.
  - unfold TransferManager.cancel_transfer.
    destruct (TransferManager._transfers m !! tid) as [p|] eqn:Hp; simpl;
      [|apply Hm].
    destruct (decide (tid = id)) as [->|Hne].
    + by rewrite !lookup_insert_eq.
    + rewrite !lookup_insert_ne by done. apply Hm.
  - destruct (decide (tid = id)) as [->|Hne].
    + by rewrite !lookup_delete_eq.
    + rewrite !lookup_delete_ne by done. apply Hm.
  - rewrite Hm. destruct (decide (tid = id)) as [->|Hne].
    + rewrite lookup_alter_eq.
      destruct (TransferManager._transfers m !! id) as [p|]; simpl; [|done].
      unfold TransferProgress.update. by destruct (Qlt_bool _ _).
    + by rewrite lookup_alter_ne.
Qed.

(** X3: however create_transfer, cancel_transfer, remove_transfer and the
    updates of stored progress objects follow each other, the
    cancellation-flag table of the TransferManager has an entry exactly for
    the registered ids and each entry equals the cancellation flag of the
    stored object: TransferManager.is_cancelled(id) is what
    get_transfer(id).is_cancelled() says, and false for an id that is not
    registered. *)
Theorem cancel_flags_mirror_transfers cs :
  let m := manager_calls cs TransferManager.init in
  flags_agree m ∧
  ∀ transfer_id,
    TransferManager.is_cancelled transfer_id m =
    match TransferManager.get_transfer transfer_id m with
    | Some p => TransferProgress.is_cancelled p
    | None => false
    end.
Proof.
  simpl.
  assert (H : flags_agree (manager_calls cs TransferManager.init)).
  { unfold manager_calls.
    induction cs as [|c cs IH] using rev_ind.
    - intros id; simpl. by rewrite !lookup_empty.
    - rewrite foldl_app; simpl. by apply flags_agree_apply. }
  split; [done|]. intros id.
  unfold TransferManager.is_cancelled, TransferManager.get_transfer.
  rewrite H. by destruct (TransferManager._transfers _ !! id).
Qed.

(** X4: the route /cancel_transfer answers 200 exactly for a registered
    id, and then both the stored object and the flag table say cancelled;
    for an id that is not registered it answers 404 and leaves the registry
    as it was, so a cancellation that arrives before its transfer is created
    is not remembered.  Cancelling twice is the same as cancelling once. *)
Theorem cancel_route_answers transfer_id m :
  let r := cancel_transfer_route transfer_id m in
  match TransferManager.get_transfer transfer_id m with
  | Some p =>
      r.1 = (200, "success") ∧
      TransferManager.get_transfer transfer_id r.2 =
        Some (TransferProgress.cancel p) ∧
      TransferManager.is_cancelled transfer_id r.2 = true ∧
      cancel_transfer_route transfer_id r.2 = r
  | None =>
      r = ((404, "error"), m) ∧
      ∀ total_size operation clock,
        TransferManager.is_cancelled transfer_id
          (TransferManager.create_transfer transfer_id total_size operation
             clock r.2).2 = false
  end.
Proof.
  unfold cancel_transfer_route, TransferManager.get_transfer,
    TransferManager.cancel_transfer, TransferManager.is_cancelled; simpl.
  destruct (TransferManager._transfers m !! transfer_id) as [p|] eqn:Hp;
    simpl.
  - rewrite !lookup_insert_eq; simpl. split_and!; try done.
    by rewrite !insert_insert_eq.
  - split; [done|]. intros. by rewrite lookup_insert_eq.
Qed.

(** ** Progress of a folder download *)

Lemma folder_callbacks_within transfer_id total m reports :
  (0 ≤ total)%Z →
  TransferManager.is_cancelled transfer_id m = false →
  Forall (λ r : Z * Q, (0 ≤ r.1)%Z) reports →
  ∀ current_size p,
    (0 ≤ current_size)%Z →
    (0 ≤ TransferProgress.current_size p ≤ total)%Z →
    ∃ p',
      folder_callbacks transfer_id total m reports current_size p =
        Some (current_size + foldr Z.add 0 (reports.*1), p') ∧
      (0 ≤ TransferProgress.current_size p' ≤ total)%Z.
Proof.
  intros Htotal Hnot Hrep.
  induction Hrep as [|[b t] reports Hb _ IH]; intros cur p Hcur Hp; simpl.
  - exists p. split; [|done]. do 2 f_equal. lia.
  - unfold folder_progress_callback. rewrite Hnot. simpl in Hb.
    destruct (IH (cur + b)
                (TransferProgress.update (Z.min total (cur + b)) t p))
      as (p' & Hrun & Hp').
    + lia.
    + rewrite update_current_size. lia.
    + exists p'. split; [|done]. rewrite Hrun. do 2 f_equal.
      change (list_fmap _ _ fst reports) with (reports.*1). lia.
Qed.

(** X5: in a folder download that is not cancelled, whose files report
    non-negative byte counts, the count handed to the progress object is
    clamped to the folder's total: after every report the transferred bytes
    of the progress object lie between 0 and the total, while the running
    cell itself is the plain sum of all reports. *)
Theorem folder_progress_within_total transfer_id total clock m reports :
  (0 ≤ total)%Z →
  TransferManager.is_cancelled transfer_id m = false →
  Forall (λ r : Z * Q, (0 ≤ r.1)%Z) reports →
  ∃ p,
    folder_callbacks transfer_id total m reports 0
      (TransferProgress.init total "download" clock) =
      Some (foldr Z.add 0 (reports.*1), p) ∧
    (0 ≤ TransferProgress.current_size p ≤ total)%Z.
Proof.
  intros Htotal Hnot Hrep.
  destruct (folder_callbacks_within transfer_id total m reports Htotal Hnot
              Hrep 0 (TransferProgress.init total "download" clock))
    as (p & Hrun & Hp); [lia | simpl; lia |].
  exists p. split; [|done]. by rewrite Hrun.
Qed.

(** Two files of 600 and 700 bytes in a folder said to hold 1000 bytes. *)
Lemma folder_progress_within_total_witness :
  ∃ p,
    folder_callbacks "t" 1000 TransferManager.init
      [(300, 1%Q); (600, 2%Q); (700, 3%Q)] 0
      (TransferProgress.init 1000 "download" 0%Q) = Some (1600, p) ∧
    (0 ≤ TransferProgress.current_size p ≤ 1000)%Z.
Proof.
  apply (folder_progress_within_total "t" 1000 0%Q TransferManager.init
           [(300, 1%Q); (600, 2%Q); (700, 3%Q)]).
  - lia.
  - reflexivity.
  - repeat constructor; simpl; lia.
Defined.

(** ** PerformanceMonitor *)

Lemma recorded_for_snoc name calls c :
  recorded_for name (calls ++ [c]) =
  recorded_for name calls ++ (if decide (c.1 = name) then [c.2] else []).
Proof.
  unfold recorded_for. rewrite filter_app, fmap_app. f_equal.
  rewrite filter_cons, filter_nil. by destruct (decide _).
Qed.

Lemma keep_last_snoc (r : list Q) (v : Q) :
  let appended := last_1000 r ++ [v] in
  (if (1000 <? length appended)%nat
   then drop (length appended - 1000) appended else appended) =
  last_1000 (r ++ [v]).
Proof.
  unfold last_1000. cbv zeta. rewrite !length_app, length_drop.
  change (length [v]) with 1%nat.
  destruct (decide (length r < 1000)%nat) as [Hlt|Hge].
  - replace (length r - 1000)%nat with 0%nat by lia.
    rewrite drop_0.
    rewrite (proj2 (Nat.ltb_ge _ _)) by lia.
    replace (length r + 1 - 1000)%nat with 0%nat by lia.
    by rewrite drop_0.
  - rewrite (proj2 (Nat.ltb_lt _ _)) by lia.
    replace (length r - (length r - 1000) + 1 - 1000)%nat with 1%nat by lia.
    rewrite !drop_app_le by (rewrite ?length_drop; lia).
    rewrite drop_drop. do 2 f_equal. lia.
Qed.

Lemma keep_last_single (v : Q) :
  (if (1000 <? length ([] ++ [v]))%nat
   then drop (length ([] ++ [v]) - 1000) ([] ++ [v]) else [] ++ [v]) =
  last_1000 [v].
Proof. reflexivity. Qed.

Lemma record_all_snoc calls c m :
  PerformanceMonitor.record_all (calls ++ [c]) m =
  PerformanceMonitor.record_metric c.1 c.2
    (PerformanceMonitor.record_all calls m).
Proof. unfold PerformanceMonitor.record_all. by rewrite foldl_app. Qed.

Lemma record_all_lookup calls name :
  PerformanceMonitor.metrics
    (PerformanceMonitor.record_all calls PerformanceMonitor.init) !! name =
  match recorded_for name calls with
  | [] => None
  | _ :: _ => Some (last_1000 (recorded_for name calls))
  end.
Proof.
  induction calls as [|[n v] calls IH] using rev_ind; [done|].
  rewrite record_all_snoc, recorded_for_snoc.
  set (M := PerformanceMonitor.record_all calls PerformanceMonitor.init) in *.
  cbn [fst snd]. unfold PerformanceMonitor.record_metric.
  cbn [PerformanceMonitor.metrics].
  destruct (decide (n = name)) as [->|Hne].
  - rewrite lookup_insert_eq, IH.
    destruct (recorded_for name calls) as [|q r] eqn:Hr.
    + cbn [default]. by rewrite keep_last_single.
    + cbn [default id]. rewrite keep_last_snoc. done.
  - rewrite lookup_insert_ne by done. by rewrite IH, app_nil_r.
Qed.

Lemma monitor_nonempty calls name l :
  PerformanceMonitor.metrics
    (PerformanceMonitor.record_all calls PerformanceMonitor.init) !! name =
    Some l →
  (0 < length l ≤ 1000)%nat ∧ l `suffix_of` recorded_for name calls.
Proof.
  rewrite record_all_lookup.
  destruct (recorded_for name calls) as [|q r]; [done|].
  intros [= <-]. unfold last_1000. rewrite length_drop.
  split; [simpl; lia | apply suffix_drop].
Qed.

(** X6: a PerformanceMonitor holds, under every name that was ever
    recorded, the last 1000 values recorded under it, in the order they
    came (all of them while there are fewer); it holds nothing under other
    names.  So no list is empty or longer than 1000. *)
Theorem monitor_keeps_last_1000 calls name :
  let m := PerformanceMonitor.record_all calls PerformanceMonitor.init in
  PerformanceMonitor.metrics m !! name =
    match recorded_for name calls with
    | [] => None
    | _ :: _ => Some (last_1000 (recorded_for name calls))
    end ∧
  ∀ l, PerformanceMonitor.metrics m !! name = Some l →
       (0 < length l ≤ 1000)%nat ∧ l `suffix_of` recorded_for name calls.
Proof.
  cbv zeta. split; [apply record_all_lookup | apply monitor_nonempty].
Qed.

(** X7: get_metrics never divides by zero on a monitor that was only
    written by record_metric: it returns, for exactly the names recorded,
    the mean of the (at most 1000) values kept. *)
Theorem monitor_get_metrics calls :
  let m := PerformanceMonitor.record_all calls PerformanceMonitor.init in
  ∃ means,
    PerformanceMonitor.get_metrics m = Some means ∧
    ∀ name,
      means !! name =
      match recorded_for name calls with
      | [] => None
      | _ :: _ =>
          let kept := last_1000 (recorded_for name calls) in
          Some (Qsum kept / inject_Z (Z.of_nat (length kept)))%Q
      end.
Proof.
  cbv zeta. unfold PerformanceMonitor.get_metrics.
  rewrite bool_decide_eq_true_2.
  - eexists. split; [done|]. intros name.
    rewrite lookup_fmap, record_all_lookup.
    by destruct (recorded_for name calls).
  - intros name l Hl.
    destruct (monitor_nonempty calls name l Hl) as [Hlen _].
    intros ->. simpl in Hlen. lia.
Qed.

(** ** SessionManager *)

(** X8: add_session stores the session under its id and touches no other
    id; remove_session after it leaves the id unregistered and every other
    id as before.  The id is then gone from the set of the client it was
    added under exactly when that client is the one the session names as
    its owner: remove_session cleans the set of session.client_id, so an id
    added under another client stays in that client's set. *)
Theorem session_manager_round_trip session_id session client m :
  let m1 := SessionManager.add_session session_id session client m in
  let m2 := SessionManager.remove_session session_id m1 in
  SessionManager.get_session session_id m1 = Some session ∧
  SessionManager.get_session session_id m2 = None ∧
  (∀ other : string, other ≠ session_id →
     SessionManager.get_session other m1 = SessionManager.get_session other m ∧
     SessionManager.get_session other m2 = SessionManager.get_session other m) ∧
  ∃ owned,
    SessionManager._client_sessions m2 !! client = Some owned ∧
    (session_id ∈ owned ↔ client_id session ≠ Some client).
Proof.
  cbv zeta.
  unfold SessionManager.get_session, SessionManager.remove_session,
    SessionManager.add_session; simpl.
  rewrite !lookup_insert_eq; simpl.
  split_and!.
  - done.
  - by rewrite lookup_delete_eq.
  - intros other Hne.
    by rewrite lookup_delete_ne, lookup_insert_ne.
  - destruct (client_id session) as [c|] eqn:Hc.
    + destruct (decide (c = client)) as [->|Hne].
      * rewrite lookup_insert_eq. eexists. rewrite lookup_insert_eq.
        split; [done|]. split; [|intros Hn; by destruct Hn].
        intros [_ Hn]%elem_of_difference. destruct Hn.
        by apply elem_of_singleton.
      * rewrite lookup_insert_ne by done.
        destruct (SessionManager._client_sessions m !! c) as [owned|].
        -- rewrite lookup_insert_ne by done. rewrite lookup_insert_eq.
           eexists. split; [done|]. split; [congruence | set_solver].
        -- rewrite lookup_insert_eq. eexists. split; [done|].
           split; [congruence | set_solver].
    + rewrite lookup_insert_eq. eexists. split; [done|].
      split; [done | set_solver].
Qed.

Lemma manager_owners_recorded_apply m c :
  adds_under_owner c →
  manager_owners_recorded m →
  manager_owners_recorded (session_call_apply m c).
Proof.
  intros Hc Hm s session client.
  destruct c as [sid new owner | sid]; simpl in *.
  - intros Hs Hown.
    destruct (decide (s = sid)) as [->|Hne].
    + rewrite lookup_insert_eq in Hs. simplify_eq.
      eexists. rewrite lookup_insert_eq. split; [done | set_solver].
    + rewrite lookup_insert_ne in Hs by done.
      destruct (Hm s session client Hs Hown) as (owned & Ho & Hin).
      destruct (decide (client = owner)) as [->|Hc'].
      * eexists. rewrite lookup_insert_eq. split; [done|].
        rewrite Ho; simpl. set_solver.
      * exists owned. by rewrite lookup_insert_ne.
  - unfold SessionManager.remove_session.
    destruct (SessionManager._sessions m !! sid) as [gone|] eqn:Hgone;
      [|apply Hm].
    simpl. intros Hs Hown.
    destruct (decide (s = sid)) as [->|Hne];
      [by rewrite lookup_delete_eq in Hs|].
    rewrite lookup_delete_ne in Hs by done.
    destruct (Hm s session client Hs Hown) as (owned & Ho & Hin).
    destruct (client_id gone) as [c|]; [|by exists owned].
    destruct (SessionManager._client_sessions m !! c) as [owned'|] eqn:Ho';
      [|by exists owned].
    destruct (decide (client = c)) as [->|Hc'].
    + eexists. rewrite lookup_insert_eq. split; [done|].
      simplify_eq. set_solver.
    + exists owned. by rewrite lookup_insert_ne.
Qed.

(** X9: when every session is added under the client it names as its
    owner, then after any sequence of add_session and remove_session calls
    every session the manager holds is in the session set of its owner. *)
Theorem session_manager_owner_sets calls :
  Forall adds_under_owner calls →
  manager_owners_recorded (foldl session_call_apply SessionManager.init calls).
Proof.
  induction calls as [|c calls IH] using rev_ind; intros Hcalls.
  - intros s session client Hs. simpl in Hs. by rewrite lookup_empty in Hs.
  - apply Forall_app in Hcalls as [Hcalls Hc]. apply Forall_inv in Hc.
    rewrite foldl_app; simpl.
    by apply manager_owners_recorded_apply; [|apply IH].
Qed.

(** alice's "s1" and "s2" are added, "s1" is removed. *)
Lemma session_manager_owner_sets_witness :
  manager_owners_recorded
    (foldl session_call_apply SessionManager.init
       [call_add_session "s1" (opened_session alice 1 1 0) "alice";
        call_add_session "s2" (opened_session alice 2 2 1) "alice";
        call_remove_session "s1"]).
Proof.
  apply session_manager_owner_sets.
  repeat constructor.
Defined.

(** ** find_free_port *)



(** ** cleanup_temp_file *)

Lemma cleanup_passes_spec unlink attempt remaining :
  let r := cleanup_passes unlink attempt remaining in
  (attempt ≤ r.1 ≤ attempt + remaining)%nat ∧
  (∀ i, (attempt ≤ i)%nat → (S i < r.1)%nat → unlink i = PermissionError) ∧
  (r.2 = true → (attempt < r.1)%nat ∧ unlink (r.1 - 1)%nat = unlinked) ∧
  (r.2 = false → (r.1 < attempt + remaining)%nat →
   (attempt < r.1)%nat ∧
   (unlink (r.1 - 1)%nat = FileNotFoundError ∨
    unlink (r.1 - 1)%nat = unlink_error)) ∧
  (r.2 = false → (0 < remaining)%nat → r.1 = (attempt + remaining)%nat →
   unlink (r.1 - 1)%nat ≠ unlinked).
Proof.
  revert attempt. induction remaining as [|n IH]; intros attempt;
    cbv zeta; simpl.
  - split; [lia|]. split; [intros i Hi Hlt; lia|].
    split; [done|]. split; intros; lia.
  - destruct (unlink attempt) eqn:Hu; simpl; rewrite ?Nat.sub_0_r.
    + split; [lia|]. split; [intros i Hi Hlt; lia|].
      split; [intros _; split; [lia | done]|]. split; intros; done.
    + destruct (IH (S attempt)) as (Hr & Hperm & Hok & Hstop & Hlast).
      split; [lia|]. split; [|split; [|split]].
      * intros i Hi Hlt. destruct (decide (i = attempt)) as [->|Hne];
          [done | apply Hperm; lia].
      * intros Ht. destruct (Hok Ht). split; [lia | done].
      * intros Hf Hlt. destruct (Hstop Hf) as [? ?]; [lia|]. split; [lia|done].
      * intros Hf _ Heq. destruct n as [|n'].
        -- simpl in *. replace (attempt - 0)%nat with attempt by lia.
           congruence.
        -- apply Hlast; [done | lia | lia].
    + split; [lia|]. split; [intros i Hi Hlt; lia|].
      split; [done|]. split.
      * intros _ _. split; [lia | by left].
      * intros _ _ _. congruence.
    + split; [lia|]. split; [intros i Hi Hlt; lia|].
      split; [done|]. split.
      * intros _ _. split; [lia | by right].
      * intros _ _ _. congruence.
Qed.

(** X11: cleanup_temp_file calls os.unlink at most 3 times, and not at all
    for a missing or empty path or a file that does not exist; it tries
    again only after a PermissionError, so every call but the last met a
    PermissionError; and it reports the file removed exactly when its last
    call removed it. *)
Theorem cleanup_temp_file_retries unlink temp_file_path file_exists :
  let r := cleanup_temp_file unlink temp_file_path file_exists in
  (r.1 ≤ 3)%nat ∧
  (truthy temp_file_path && file_exists = false → r = (O, false)) ∧
  (truthy temp_file_path && file_exists = true → (1 ≤ r.1)%nat) ∧
  (∀ i, (S i < r.1)%nat → unlink i = PermissionError) ∧
  (r.2 = true ↔ (1 ≤ r.1)%nat ∧ unlink (r.1 - 1)%nat = unlinked) ∧
  ((1 ≤ r.1 < 3)%nat → unlink (r.1 - 1)%nat ≠ PermissionError).
Proof.
  cbv zeta. unfold cleanup_temp_file.
  destruct (truthy temp_file_path && file_exists) eqn:Hguard.
  - apply andb_true_iff in Hguard as [-> ->]. cbn [negb orb].
    destruct (cleanup_passes_spec unlink 0 3)
      as (Hr & Hperm & Hok & Hstop & Hlast).
    set (r := cleanup_passes unlink 0 3) in *. cbv zeta in *.
    assert (H1 : (1 ≤ r.1)%nat).
    { destruct (r.2) eqn:H2; [destruct (Hok eq_refl); lia|].
      destruct (decide (r.1 < 3)%nat) as [Hlt|Hge]; [|lia].
      destruct (Hstop eq_refl) as [? _]; lia. }
    split; [lia|]. split; [done|]. split; [done|].
    split; [intros i Hi; apply Hperm; lia|]. split.
    + split.
      * intros Ht. destruct (Hok Ht). done.
      * intros [_ Hu]. destruct (r.2) eqn:H2; [done|].
        destruct (decide (r.1 < 3)%nat) as [Hlt|Hge].
        -- destruct (Hstop eq_refl) as [_ [Hs|Hs]]; [lia | congruence..].
        -- exfalso. apply (Hlast eq_refl); [lia | lia | done].
    + intros [_ Hlt] Hu.
      destruct (r.2) eqn:H2.
      * destruct (Hok eq_refl). congruence.
      * destruct (Hstop eq_refl) as [_ [Hs|Hs]]; [lia | congruence..].
  - assert (Hif : negb (truthy temp_file_path) || negb file_exists = true).
    { destruct (truthy temp_file_path), file_exists; done. }
    rewrite Hif. simpl.
    split; [lia|]. split; [done|]. split; [done|].
    split; [intros i Hi; lia|]. split; [|lia].
    split; [done | intros [? _]; lia].
Qed.

(** ** The stream of a download *)

Lemma file_read_prefix size rest :
  file_read size rest ++ drop (length (file_read size rest)) rest = rest.
Proof.
  unfold file_read. destruct (size <? 0)%Z.
  - by rewrite drop_all, app_nil_r.
  - rewrite length_take.
    destruct (decide (Z.to_nat size ≤ length rest)%nat).
    + rewrite Nat.min_l by done. apply take_drop.
    + rewrite Nat.min_r by lia. rewrite take_ge by lia.
      by rewrite drop_all, app_nil_r.
Qed.

Lemma file_read_length size rest :
  (0 < size)%Z → (Z.of_nat (length (file_read size rest)) ≤ size)%Z.
Proof.
  intros Hpos. unfold file_read.
  rewrite (proj2 (Z.ltb_ge _ _)) by lia. rewrite length_take. lia.
Qed.

(** The loop ends within its fuel, and what it yields is a prefix of what
    was left of the file. *)
Lemma stream_loop_prefix fuel chunk_size rest check cancel_at :
  (length rest < fuel)%nat →
  ∃ chunks,
    stream_loop fuel chunk_size rest check cancel_at = Some chunks ∧
    concat chunks `prefix_of` rest.
Proof.
  revert rest check. induction fuel as [|fuel IH]; intros rest check Hfuel;
    [lia|]. simpl.
  destruct (sees_cancel cancel_at check);
    [exists [[]]; split; [done | apply prefix_nil]|].
  pose proof (file_read_prefix chunk_size rest) as Hread.
  destruct (file_read chunk_size rest) as [|b chunk] eqn:Hchunk;
    [exists []; split; [done | apply prefix_nil]|].
  destruct (IH (drop (length (b :: chunk)) rest) (S check))
    as (chunks & Hrun & Hpre).
  { rewrite length_drop. simpl. simpl in Hfuel. 
    assert (length rest ≠ 0)%nat; [|lia].
    intros H0. apply nil_length_inv in H0. subst rest.
    by destruct chunk_size; unfold file_read in Hchunk; simpl in Hchunk;
      rewrite ?take_nil in Hchunk. }
  exists ((b :: chunk) :: chunks). rewrite Hrun. split; [done|].
  rewrite <- Hread. change (concat ((b :: chunk) :: chunks))
    with ((b :: chunk) ++ concat chunks).
  by apply prefix_app.
Qed.

(** Without a cancellation the loop yields the whole of it, in chunks that
    are not empty and not longer than the chunk size. *)
Lemma stream_loop_whole fuel chunk_size rest check :
  (0 < chunk_size)%Z →
  (length rest < fuel)%nat →
  ∃ chunks,
    stream_loop fuel chunk_size rest check None = Some chunks ∧
    concat chunks = rest ∧
    Forall (λ c, (0 < length c)%nat ∧ (Z.of_nat (length c) ≤ chunk_size)%Z)
      chunks.
Proof.
  intros Hsize.
  revert rest check. induction fuel as [|fuel IH]; intros rest check Hfuel;
    [lia|]. simpl.
  pose proof (file_read_prefix chunk_size rest) as Hread.
  pose proof (file_read_length chunk_size rest Hsize) as Hlen.
  destruct (file_read chunk_size rest) as [|b chunk] eqn:Hchunk.
  - exists []. split; [done|]. split; [|done].
    unfold file_read in Hchunk.
    rewrite (proj2 (Z.ltb_ge _ _)) in Hchunk by lia.
    destruct rest as [|x rest]; [done|].
    destruct (Z.to_nat chunk_size) eqn:Hn; [lia | done].
  - destruct (IH (drop (length (b :: chunk)) rest) (S check))
      as (chunks & Hrun & Hcat & Hall).
    { rewrite length_drop. simpl.
      assert (length rest ≠ 0)%nat; [|lia].
      intros H0. apply nil_length_inv in H0. subst rest.
      unfold file_read in Hchunk.
      destruct (chunk_size <? 0)%Z; [done|]. by rewrite take_nil in Hchunk. }
    exists ((b :: chunk) :: chunks). rewrite Hrun. split; [done|].
    split.
    + simpl concat. rewrite Hcat. exact Hread.
    + constructor; [|done]. split; [simpl; lia | done].
Qed.

(** X12: the generator of download_file always comes to an end.  When the
    pull of the remote file succeeds, what it yields, put end to end, is a
    prefix of the file, and without a cancellation it is the whole file, in
    chunks that are not empty and at most transfer.chunk_size long.  It
    raises only when sftp.getfo raised and no cancellation was seen. *)
Theorem generate_streams_file transfer_id file_size remote p cancel_at :
  let transfer := OptimizedFileTransfer.init transfer_id file_size in
  ∃ g,
    generate transfer remote p cancel_at = Some g ∧
    match g with
    | yields chunks =>
        concat chunks `prefix_of` remote ∧
        (cancel_at = None →
         pull_returns p = true ∧
         concat chunks = remote ∧
         Forall (λ c, (0 < length c)%nat ∧
                      (Z.of_nat (length c) ≤
                       OptimizedFileTransfer.chunk_size transfer)%Z) chunks)
    | raises =>
        pull_returns p = false ∧
        ∀ check, (check ≤ pull_reports p)%nat →
                 sees_cancel cancel_at check = false
    end.
Proof.
  cbv zeta. unfold generate.
  destruct (existsb (sees_cancel cancel_at) (seq 0 (pull_reports p)))
    eqn:Hseen.
  - exists (yields [[]]). split; [done|]. split; [apply prefix_nil|].
    intros ->. apply existsb_exists in Hseen as (x & _ & Hx). done.
  - change (OptimizedFileTransfer.chunk_size
              (OptimizedFileTransfer.init transfer_id file_size))
      with (OptimizedFileTransfer._calculate_chunk_size file_size).
    destruct (pull_returns p) eqn:Hret; cbn [negb].
    + destruct cancel_at as [k|].
      * destruct (stream_loop_prefix (S (length remote))
                    (OptimizedFileTransfer._calculate_chunk_size file_size)
                    remote (pull_reports p) (Some k))
          as (chunks & Hrun & Hpre); [lia|].
        rewrite Hrun. exists (yields chunks). split; [done|].
        split; [done | done].
      * destruct (stream_loop_whole (S (length remote))
                    (OptimizedFileTransfer._calculate_chunk_size file_size)
                    remote (pull_reports p))
          as (chunks & Hrun & Hcat & Hall).
        { unfold OptimizedFileTransfer._calculate_chunk_size.
          repeat case_match; lia. }
        { lia. }
        rewrite Hrun. exists (yields chunks). split; [done|].
        split; [by rewrite Hcat|]. done.
    + destruct (sees_cancel cancel_at (pull_reports p)) eqn:Hlast.
      * exists (yields [[]]). split; [done|]. split; [apply prefix_nil|].
        by intros ->.
      * exists raises. split; [done|]. split; [done|].
        intros check Hcheck.
        destruct (decide (check = pull_reports p)) as [->|Hne]; [done|].
        destruct (sees_cancel cancel_at check) eqn:Hc; [|done].
        assert (existsb (sees_cancel cancel_at) (seq 0 (pull_reports p))
                = true); [|congruence].
        apply existsb_exists. exists check. split; [|done].
        apply in_seq. lia.
Qed.

(** ** The service over its whole life *)

Lemma run_snoc decode tr a st :
  run decode (tr ++ [a]) st = step decode a (run decode tr st).
Proof. revert st. induction tr as [|b tr IH]; intros st; simpl; [done|apply IH]. Qed.

Lemma run_owners_recorded decode tr :
  owners_recorded (run decode tr initial_state).
Proof.
  induction tr as [|a tr IH] using rev_ind; [apply owners_recorded_initial|].
  rewrite run_snoc. by apply (step_accounting decode "" a).
Qed.

Lemma handle_ssh_close_threads req session_id st :
  threads (handle_ssh_close req session_id st) = threads st.
Proof.
  unfold handle_ssh_close.
  destruct (ssh_sessions st !! session_id) as [session|]; [|done].
  case_bool_decide; [|done]. simpl.
  destruct (client_sessions st !! sid req) as [owned|]; [|done].
  by case_bool_decide.
Qed.

Lemma read_output_step_buffer decode o r st :
  r_buffer r = [] →
  r_buffer (read_output_step decode o r st).1 = [] ∧
  threads (read_output_step decode o r st).2 = threads st.
Proof.
  intros Hb. unfold read_output_step.
  destruct (r_phase r); simpl; try done.
  - unfold read_output_pass, check_channel.
    destruct (negb _); [done|].
    destruct (polled o) as [[[|b data]| |]|ok]; simpl; try done.
    + by destruct (channel_open o).
    + by destruct (channel_open o).
    + destruct (Qlt_bool _ _); [destruct ok|]; simpl; try done;
        by destruct (channel_open o).
  - split; [done | apply threads_finally].
Qed.

Lemma buffers_empty_step decode a st :
  buffers_empty st → buffers_empty (step decode a st).
Proof.
  unfold buffers_empty. intros Hst.
  destruct a as [req s r | req s input pasted last | req s | req data
                | thread o]; simpl.
  - destruct r; simpl; try done.
    apply Forall_app; split; [done|]. by constructor.
  - by destruct (handle_ssh_input_effects req s input pasted last st)
      as (es & -> & _).
  - by rewrite handle_ssh_close_threads.
  - by destruct (handle_resize_effects req data st) as (es & -> & _).
  - destruct (threads st !! thread) as [r|] eqn:Hr; [|done].
    assert (Hb : r_buffer r = []).
    { eapply (proj1 (Forall_lookup _ _) Hst); done. }
    destruct (read_output_step_buffer decode o r st Hb) as [Hb' Hth].
    destruct (read_output_step decode o r st) as [r' st']; simpl in *.
    rewrite Hth. by apply Forall_insert.
Qed.

(** X13: in every state the service reaches, the byte buffer of every
    reader thread is empty between two passes of its loop: the buffer is
    cleared after every decode, so nothing read in one pass is ever decoded
    again with the bytes of the next.  A pass that reads data for an active
    session therefore emits one ssh_output event, a broadcast, whose text is
    the decoding of just the bytes of that read. *)
Theorem reader_buffer_always_empty decode tr :
  let st := run decode tr initial_state in
  ∀ thread r,
    threads st !! thread = Some r →
    r_buffer r = [] ∧
    ∀ o b data session,
      r_phase r = Looping →
      ssh_sessions st !! r_session_id r = Some session →
      active session = true →
      polled o = ready (recv_data (b :: data)) →
      effects (step decode (reader_runs thread o) st) =
        effects st ++
        [emit "ssh_output" (r_session_id r)
           [("output", decode (b :: data))] None].
Proof.
  cbv zeta.
  assert (Hall : buffers_empty (run decode tr initial_state)).
  { induction tr as [|a tr IH] using rev_ind; [by constructor|].
    rewrite run_snoc. by apply buffers_empty_step. }
  intros thread r Hr.
  assert (Hb : r_buffer r = []).
  { eapply (proj1 (Forall_lookup _ _) Hall); done. }
  split; [done|].
  intros o b data session Hp Hs Hact Hpoll. simpl. rewrite Hr.
  unfold read_output_step. rewrite Hp.
  unfold read_output_pass. rewrite Hs, Hact, Hpoll, Hb. simpl. done.
Qed.

(** alice has opened "s1" and its reader has entered its loop. *)
Lemma reader_buffer_always_empty_witness :
  let st := run no_decode
              [open_ssh alice "s1" (Connected 1 1); reader_runs 0 quiet]
              initial_state in
  let r := mkReader "s1" 1 0 [] Looping in
  r_buffer r = [] ∧
  ∀ o b data session,
    r_phase r = Looping →
    ssh_sessions st !! r_session_id r = Some session →
    active session = true →
    polled o = ready (recv_data (b :: data)) →
    effects (step no_decode (reader_runs 0 o) st) =
      effects st ++
      [emit "ssh_output" (r_session_id r)
         [("output", no_decode (b :: data))] None].
Proof.
  apply (reader_buffer_always_empty no_decode
           [open_ssh alice "s1" (Connected 1 1); reader_runs 0 quiet]
           0 (mkReader "s1" 1 0 [] Looping)).
  reflexivity.
Defined.

(** X14: a reader thread never takes a session out of the registry and
    never touches the clients' session sets: after any step of a reader
    every session id is registered exactly if it was before, with the same
    session, or the same session marked inactive.  A session whose remote
    end hung up thus stays registered until its owner closes it. *)
Theorem reader_keeps_registry decode thread o st :
  let st' := step decode (reader_runs thread o) st in
  client_sessions st' = client_sessions st ∧
  ∀ session_id,
    ssh_sessions st' !! session_id = ssh_sessions st !! session_id ∨
    ssh_sessions st' !! session_id =
      set_active false <$> ssh_sessions st !! session_id.
Proof.
  cbv zeta. simpl.
  destruct (threads st !! thread) as [r|]; [|split; [done | by left]].
  unfold read_output_step.
  destruct (r_phase r) eqn:Hp; simpl; try (split; [done | by left]).
  - destruct (read_output_pass_quiet decode o r st Hp) as (es & Hes & _).
    destruct (read_output_pass decode o r st) as [r' st']; simpl in *.
    subst st'. split; [done | by left].
  - unfold read_output_finally.
    destruct (ssh_sessions st !! r_session_id r) as [session|] eqn:Hs;
      simpl; [|split; [done | by left]].
    split; [done|]. intros session_id.
    destruct (decide (session_id = r_session_id r)) as [->|Hne].
    + right. by rewrite lookup_insert_eq, Hs.
    + left. by rewrite lookup_insert_ne.
Qed.



(** X16: a reader in its loop on an active session whose channel is open
    and silent sends the keepalive byte NUL exactly when more than 60
    seconds have passed since its last activity, and then counts that moment
    as its last activity, so that the silent passes of the next 60 seconds
    send nothing; at 60 seconds or less it sends nothing. *)
Theorem keepalive_after_60_seconds decode thread o r session st :
  threads st !! thread = Some r →
  r_phase r = Looping →
  ssh_sessions st !! r_session_id r = Some session →
  active session = true →
  polled o = idle true →
  channel_open o = true →
  let st' := step decode (reader_runs thread o) st in
  if Qlt_bool 60 (now o - r_last_activity r) then
    effects st' = effects st ++ [channel_send (r_channel r) NUL] ∧
    threads st' !! thread = Some (set_locals (now o) (r_buffer r) r) ∧
    ∀ o', polled o' = idle true → channel_open o' = true →
          Qlt_bool 60 (now o' - now o) = false →
          effects (step decode (reader_runs thread o') st') = effects st'
  else
    effects st' = effects st ∧ threads st' !! thread = Some r.
Proof.
  intros Hr Hp Hs Hact Hpoll Hopen. cbv zeta.
  pose proof (lookup_lt_Some _ _ _ Hr) as Hlt.
  simpl. rewrite Hr. unfold read_output_step. rewrite Hp.
  unfold read_output_pass, check_channel.
  rewrite Hs, Hact, Hpoll, Hopen. simpl.
  destruct (Qlt_bool 60 (now o - r_last_activity r)); simpl.
  - split_and!; [done | by rewrite list_lookup_insert_eq |].
    intros o' Hpoll' Hopen' Hsoon.
    rewrite list_lookup_insert_eq by done.
    unfold read_output_step. simpl. rewrite Hp.
    unfold read_output_pass, check_channel. simpl.
    by rewrite Hs, Hact, Hpoll', Hopen', Hsoon.
  - split; [done | by rewrite list_lookup_insert_eq].
Qed.

(** alice's session has been silent for 61 seconds. *)
Lemma keepalive_after_60_seconds_witness :
  let o := mkObservation 61 (idle true) true in
  let st' := step no_decode (reader_runs 0 o) reader_looping in
  effects st' = effects reader_looping ++ [channel_send 1 NUL] ∧
  ∀ o', polled o' = idle true → channel_open o' = true →
        Qlt_bool 60 (now o' - 61) = false →
        effects (step no_decode (reader_runs 0 o') st') = effects st'.
Proof.
  pose proof (keepalive_after_60_seconds no_decode 0
                (mkObservation 61 (idle true) true)
                (mkReader "s1" 1 0 [] Looping) (opened_session alice 1 1 0)
                reader_looping) as H.
  destruct H as (H1 & _ & H3); try reflexivity.
  split; [exact H1 | exact H3].
Defined.

(** X17: in every state the service reaches, a close request of the owner
    of a registered session closes the session's channel and connection,
    removes the session from the registry and its id from the owner's set,
    and broadcasts one ssh_closed event; it never ends in the handler's
    error branch. *)
Theorem owner_close_notifies decode tr req session_id session :
  let st := run decode tr initial_state in
  ssh_sessions st !! session_id = Some session →
  client_id session = Some (sid req) →
  let st' := handle_ssh_close req session_id st in
  effects st' = effects st ++
    [channel_close (channel session); ssh_close (ssh_client session);
     emit "ssh_closed" session_id [("message", "Connection closed")] None] ∧
  ssh_sessions st' = delete session_id (ssh_sessions st) ∧
  threads st' = threads st ∧
  ∃ owned,
    client_sessions st !! sid req = Some owned ∧ session_id ∈ owned ∧
    client_sessions st' =
      <[sid req := owned ∖ {[session_id]}]> (client_sessions st).
Proof.
  cbv zeta. intros Hs Hown.
  destruct (run_owners_recorded decode tr session_id session (sid req) Hs Hown)
    as (owned & Ho & Hin).
  unfold handle_ssh_close. rewrite Hs.
  rewrite bool_decide_eq_true_2 by done. simpl. rewrite Ho.
  rewrite bool_decide_eq_true_2 by done. simpl.
  split_and!.
  - by rewrite <- app_assoc.
  - by rewrite delete_insert_eq.
  - done.
  - by exists owned.
Qed.

(** alice closes the session "s1", opened from the same client. *)
Lemma owner_close_notifies_witness :
  effects (handle_ssh_close alice "s1" one_session) =
    effects one_session ++
    [channel_close 1; ssh_close 1;
     emit "ssh_closed" "s1" [("message", "Connection closed")] None].
Proof.
  apply (owner_close_notifies no_decode
           [open_ssh alice "s1" (Connected 1 1)] alice "s1"
           (opened_session alice 1 1 0)); reflexivity.
Defined.

(** X18: an open request whose connection fails registers nothing: the
    registry, the clients' session sets and the threads are as before, and
    the only event is one ssh_error in the caller's room, of type network
    for a ConnectionError, auth for an AuthenticationException and unknown
    for any other exception. *)
Theorem failed_open_registers_nothing req session_id r st :
  (∀ ssh ch, r ≠ Connected ssh ch) →
  let st' := handle_ssh_connection req session_id r st in
  ssh_sessions st' = ssh_sessions st ∧
  client_sessions st' = client_sessions st ∧
  threads st' = threads st ∧
  ∃ text,
    effects st' = effects st ++
      [emit "ssh_error" session_id
         [("error", text);
          ("type", match r with
                   | ConnectionError _ => "network"
                   | AuthenticationException => "auth"
                   | _ => "unknown"
                   end)] (Some (sid req))].
Proof.
  intros Hr. destruct r as [ssh ch| msg | | msg]; simpl.
  - by destruct (Hr ssh ch).
  - split_and!; eauto.
  - split_and!; eauto.
  - split_and!; eauto.
Qed.

(** The connection of bob times out. *)
Lemma failed_open_registers_nothing_witness :
  let st' := handle_ssh_connection bob "s2" (ConnectionError "timed out")
               one_session in
  ssh_sessions st' = ssh_sessions one_session ∧
  client_sessions st' = client_sessions one_session ∧
  threads st' = threads one_session ∧
  ∃ text,
    effects st' = effects one_session ++
      [emit "ssh_error" "s2" [("error", text); ("type", "network")]
         (Some "bob")].
Proof.
  apply (failed_open_registers_nothing bob "s2" (ConnectionError "timed out")
           one_session).
  intros ssh ch. discriminate.
Defined.

(** ** Opening connections *)

Lemma string_length_app (s1 s2 : string) :
  String.length (s1 ++ s2) = (String.length s1 + String.length s2)%nat.
Proof. induction s1 as [|a s1 IH]; simpl; [done | by rewrite IH]. Qed.

Lemma equals_signs_length n : String.length (equals_signs n) = n.
Proof. induction n as [|n IH]; simpl; [done | by rewrite IH]. Qed.

(** X19: the padding put on a password before it is base64-decoded adds
    at most three "=" signs and makes the length a multiple of 4; a password
    whose length already is one is left as it is. *)
Theorem pad_password_multiple_of_4 password :
  (String.length (pad_password password) mod 4 = 0)%nat ∧
  (∃ n, (n < 4)%nat ∧ pad_password password = password ++ equals_signs n)%string ∧
  ((String.length password mod 4 = 0)%nat → pad_password password = password).
Proof.
  unfold pad_password.
  pose proof (Nat.mod_upper_bound (String.length password) 4) as Hm.
  pose proof (Nat.div_mod_eq (String.length password) 4) as Hd.
  set (m := (String.length password mod 4)%nat) in *.
  set (q := (String.length password / 4)%nat) in *.
  assert (Hcases : (m = 0 ∨ m = 1 ∨ m = 2 ∨ m = 3)%nat) by lia.
  split_and!.
  - rewrite string_length_app, equals_signs_length, Hd.
    destruct Hcases as [Hc | [Hc | [Hc | Hc]]]; rewrite Hc.
    + change ((4 - 0) mod 4)%nat with 0%nat.
      replace (4 * q + 0 + 0)%nat with (q * 4)%nat by lia.
      apply Nat.Div0.mod_mul.
    + change ((4 - 1) mod 4)%nat with 3%nat.
      replace (4 * q + 1 + 3)%nat with ((q + 1) * 4)%nat by lia.
      apply Nat.Div0.mod_mul.
    + change ((4 - 2) mod 4)%nat with 2%nat.
      replace (4 * q + 2 + 2)%nat with ((q + 1) * 4)%nat by lia.
      apply Nat.Div0.mod_mul.
    + change ((4 - 3) mod 4)%nat with 1%nat.
      replace (4 * q + 3 + 1)%nat with ((q + 1) * 4)%nat by lia.
      apply Nat.Div0.mod_mul.
  - eexists. split; [|done]. apply Nat.mod_upper_bound. lia.
  - intros Hz. subst m. rewrite Hz.
    change ((4 - 0) mod 4)%nat with 0%nat. simpl equals_signs.
    clear. induction password as [|a s IH]; [done|].
    change (String a (String.append s "") = String a s). by rewrite IH.
Qed.

Section ConnectionFactoryProperties.

Variable b64decode_utf8 : string → option string.
Variable load_key : string → key_file.
Variable connect : string → Z → string → credential → option exception.
Variable invoke_shell : exception + nat.
Variable has_transport : bool.
Variable open_sftp : exception + nat.

Lemma create_base_client_closes c :
  let r := create_base_client b64decode_utf8 load_key connect c in
  match r.1 with
  | Some _ =>
      countb is_call_close r.2 = 1%nat ∧ last r.2 = Some call_close
  | None => countb is_call_close r.2 = 0%nat
  end.
Proof.
  cbv zeta. unfold create_base_client.
  destruct (choose_credential b64decode_utf8 load_key c) as [e|cred];
    simpl; [done|].
  by destruct (connect (host c) (port c) (username c) cred).
Qed.

(** X20: create_ssh_client and create_sftp_client never leave a client
    open behind a failure: whenever one of them raises, the client was
    closed exactly once, as the last call made on it; and when they return,
    it was not closed.  That holds whether the failure is a missing
    credential, an unreadable key, the connection itself, or the shell or
    sftp channel that could not be opened. *)
Theorem failed_connection_is_closed c :
  let shell := create_ssh_client b64decode_utf8 load_key connect invoke_shell
                 has_transport c in
  let sftp := create_sftp_client b64decode_utf8 load_key connect open_sftp c in
  match shell.1 with
  | inl _ =>
      countb is_call_close shell.2 = 1%nat ∧ last shell.2 = Some call_close
  | inr _ => countb is_call_close shell.2 = 0%nat
  end ∧
  match sftp.1 with
  | inl _ =>
      countb is_call_close sftp.2 = 1%nat ∧ last sftp.2 = Some call_close
  | inr _ => countb is_call_close sftp.2 = 0%nat
  end.
Proof.
  cbv zeta. unfold create_ssh_client, create_sftp_client.
  pose proof (create_base_client_closes c) as Hbase. cbv zeta in Hbase.
  destruct (create_base_client b64decode_utf8 load_key connect c)
    as [[e|] calls]; simpl in *; [done|].
  split.
  - destruct invoke_shell as [e|ch]; simpl.
    + rewrite !countb_app, Hbase; simpl. split; [done|].
      by rewrite last_snoc.
    + destruct has_transport; rewrite ?countb_app, Hbase; done.
  - destruct open_sftp as [e|s]; simpl.
    + rewrite !countb_app, Hbase; simpl. split; [done|].
      by rewrite last_snoc.
    + by rewrite countb_app, Hbase.
Qed.

Lemma credential_choice_at c :
  let r := create_base_client b64decode_utf8 load_key connect c in
  (∀ text,
     authType c = Some "password" → password c = Some text →
     ∃ rest,
       r.2 = call_connect (host c) (port c) (username c) 30
               (with_password
                  (default text (b64decode_utf8 (pad_password text))))
             :: rest ∧
       countb is_call_connect rest = 0%nat) ∧
  (authType c ≠ Some "password" →
   privateKeyPath c = None ∨ privateKeyPath c = Some "" →
   r = (Some (raise_Exception
                "Private key path is required for key authentication"),
        [call_close])).
Proof.
  cbv zeta. unfold create_base_client, choose_credential. split.
  - intros text Hauth Hpw. rewrite Hauth, Hpw.
    rewrite bool_decide_eq_true_2 by done.
    destruct (b64decode_utf8 (pad_password text)) as [decoded|]; simpl;
      match goal with
      | |- context [connect ?h ?p ?u ?cr] => destruct (connect h p u cr)
      end; simpl; eexists; split; done.
  - intros Hauth Hpath. rewrite bool_decide_eq_false_2 by done.
    by destruct Hpath as [-> | ->].
Qed.

(** X21: how create_base_client picks the credential.  With password
    authentication it connects, with a timeout of 30 seconds, using the
    base64-decoded password when the padded password decodes, and the
    password as it was sent (without the padding) when it does not.  With
    any other authentication and no key path it raises "Private key path is
    required for key authentication" without trying to connect. *)
Theorem credential_choice c :
  let r := create_base_client b64decode_utf8 load_key connect c in
  (∀ text,
     authType c = Some "password" → password c = Some text →
     ∃ rest,
       r.2 = call_connect (host c) (port c) (username c) 30
               (with_password
                  (default text (b64decode_utf8 (pad_password text))))
             :: rest ∧
       countb is_call_connect rest = 0%nat) ∧
  (authType c ≠ Some "password" →
   privateKeyPath c = None ∨ privateKeyPath c = Some "" →
   r = (Some (raise_Exception
                "Private key path is required for key authentication"),
        [call_close])).
Proof. apply credential_choice_at. Qed.

(** X22: an open request whose connection asks for key authentication
    but names no key file is answered with the ssh_error "Connection failed:
    Private key path is required for key authentication" of type unknown in
    the caller's room; nothing is registered, and no connection to the host
    was attempted. *)
Theorem open_without_key_path req session_id ssh c st :
  authType c ≠ Some "password" →
  privateKeyPath c = None ∨ privateKeyPath c = Some "" →
  let r := create_ssh_client b64decode_utf8 load_key connect invoke_shell
             has_transport c in
  countb is_call_connect r.2 = 0%nat ∧
  handle_ssh_connection req session_id (connect_result_of ssh r.1) st =
  perform
    [emit "ssh_error" session_id
       [("error",
         "Connection failed: Private key path is required for key authentication");
        ("type", "unknown")] (Some (sid req))] st.
Proof.
  intros Hauth Hpath. cbv zeta. unfold create_ssh_client.
  rewrite (proj2 (credential_choice_at c) Hauth Hpath). done.
Qed.

End ConnectionFactoryProperties.

(** alice opens "s1" on the connection without a key. *)
Lemma open_without_key_path_witness :
  let r := create_ssh_client no_utf8 no_key unreachable (inr 1%nat) true
             keyless in
  countb is_call_connect r.2 = 0%nat ∧
  handle_ssh_connection alice "s1" (connect_result_of 1 r.1) initial_state =
  perform
    [emit "ssh_error" "s1"
       [("error",
         "Connection failed: Private key path is required for key authentication");
        ("type", "unknown")] (Some "alice")] initial_state.
Proof.
  apply (open_without_key_path no_utf8 no_key unreachable (inr 1%nat) true
           alice "s1" 1%nat keyless initial_state).
  - discriminate.
  - by left.
Defined.

(** ** upload_file *)

Lemma temp_file_path_truthy id : truthy (Some (temp_file_path_of id)) = true.
Proof.
  unfold truthy. rewrite bool_decide_eq_false_2; [done|].
  unfold temp_file_path_of. intros H. discriminate H.
Qed.

Lemma upload_prologue_registered data clock m p :
  chunkIndex data ≠ 0%Z →
  TransferManager.get_transfer (transferId data) m = Some p →
  TransferProgress.is_cancelled p = false →
  upload_file_prologue data clock m =
    (proceed (OptimizedFileTransfer.init (transferId data) (totalSize data))
       (Some p), m).
Proof.
  intros Hidx Hp Hc. unfold upload_file_prologue.
  rewrite (proj2 (Z.eqb_neq _ _) Hidx). by rewrite Hp, Hc.
Qed.

Lemma update_is_cancelled b t p :
  TransferProgress.is_cancelled (TransferProgress.update b t p) =
  TransferProgress.is_cancelled p.
Proof. unfold TransferProgress.update. by destruct (Qlt_bool _ _). Qed.

Section UploadFileProperties.

Variable b64decode : string → option (list Byte.byte).

Lemma upload_first_chunk req w st content chunk :
  chunkIndex (u_data req) = 0%Z →
  isLastChunk (u_data req) = false →
  w_sftp w = None →
  u_content req = Some content → content ≠ "" →
  b64decode content = Some chunk →
  let path := temp_file_path_of (w_uuid w) in
  let file := default [] (u_files st !! path) ++ chunk in
  let fresh :=
    TransferProgress.init (totalSize (u_data req)) "upload" (w_clock w) in
  upload_file b64decode req w st =
    (resp_chunk_uploaded (Some (w_uuid w)),
     {| u_manager :=
          {| TransferManager._transfers :=
               <[transferId (u_data req) :=
                   TransferProgress.update (Z.of_nat (length file))
                     (w_write_clock w) fresh]>
                 (<[transferId (u_data req) := fresh]>
                    (TransferManager._transfers (u_manager st)));
             TransferManager._cancel_flags :=
               <[transferId (u_data req) := false]>
                 (TransferManager._cancel_flags (u_manager st)) |};
        u_files := <[path := file]> (u_files st) |}).
Proof.
  intros Hidx Hlast Hsftp Hcontent Hne Hdec. cbv zeta.
  unfold upload_file, upload_file_prologue. rewrite Hidx. simpl.
  rewrite Hsftp, Hcontent. simpl.
  rewrite (bool_decide_eq_false_2 _ Hne). simpl. rewrite Hdec.
  rewrite update_is_cancelled. simpl. by rewrite Hlast.
Qed.

Lemma upload_later_chunk req w st id content chunk p :
  chunkIndex (u_data req) ≠ 0%Z →
  isLastChunk (u_data req) = false →
  w_sftp w = None →
  u_tempFileId req = Some id →
  u_content req = Some content → content ≠ "" →
  b64decode content = Some chunk →
  TransferManager.get_transfer (transferId (u_data req)) (u_manager st)
    = Some p →
  TransferProgress.is_cancelled p = false →
  let path := temp_file_path_of id in
  let file := default [] (u_files st !! path) ++ chunk in
  upload_file b64decode req w st =
    (resp_chunk_uploaded (Some id),
     {| u_manager :=
          {| TransferManager._transfers :=
               <[transferId (u_data req) :=
                   TransferProgress.update (Z.of_nat (length file))
                     (w_write_clock w) p]>
                 (TransferManager._transfers (u_manager st));
             TransferManager._cancel_flags :=
               TransferManager._cancel_flags (u_manager st) |};
        u_files := <[path := file]> (u_files st) |}).
Proof.
  intros Hidx Hlast Hsftp Hid Hcontent Hne Hdec Hp Hc. cbv zeta.
  unfold upload_file.
  rewrite (upload_prologue_registered _ _ _ p Hidx Hp Hc).
  rewrite Hsftp, (proj2 (Z.eqb_neq _ _) Hidx), Hid, Hcontent. simpl.
  rewrite (bool_decide_eq_false_2 _ Hne). simpl. rewrite Hdec.
  rewrite update_is_cancelled, Hc. by rewrite Hlast.
Qed.

End UploadFileProperties.

Section UploadFileTheorems.

Variable b64decode : string → option (list Byte.byte).


Lemma upload_chunks_later data w id contents :
  w_sftp w = None →
  Forall (λ c, c ≠ "" ∧ is_Some (b64decode c)) contents →
  ∀ index st p,
    (0 < index)%Z →
    TransferManager.get_transfer (transferId data) (u_manager st) = Some p →
    TransferProgress.is_cancelled p = false →
    let r := upload_chunks b64decode data w index (Some id) contents st in
    let file :=
      default [] (u_files st !! temp_file_path_of id) ++
      decoded_chunks b64decode contents in
    r.1 = replicate (length contents) (resp_chunk_uploaded (Some id)) ∧
    (contents ≠ [] → u_files r.2 !! temp_file_path_of id = Some file) ∧
    ∃ p', TransferManager.get_transfer (transferId data) (u_manager r.2)
            = Some p' ∧
          TransferProgress.is_cancelled p' = false ∧
          TransferProgress.total_size p' = TransferProgress.total_size p ∧
          (contents ≠ [] →
           TransferProgress.current_size p' = Z.of_nat (length file)).
Proof.
  intros Hsftp Hall. induction Hall as [|c contents [Hne [chunk Hdec]] _ IH];
    intros index st p Hidx Hp Hc; cbv zeta.
  - cbn [upload_chunks fst snd]. split; [done|]. split; [done|].
    exists p. by split_and!.
  - cbn [upload_chunks].
    rewrite (upload_later_chunk b64decode _ w st id c chunk p);
      [| simpl; (done || lia) ..].
    cbv zeta. cbn [u_data transferId].
    set (file1 := default [] (u_files st !! temp_file_path_of id) ++ chunk).
    set (p1 := TransferProgress.update (Z.of_nat (length file1))
                 (w_write_clock w) p).
    set (st1 := mkUploadState _ _).
    assert (Hst1 : u_files st1 !! temp_file_path_of id = Some file1)
      by apply lookup_insert_eq.
    assert (Hp1 : TransferManager.get_transfer (transferId data)
                    (u_manager st1) = Some p1)
      by apply lookup_insert_eq.
    assert (Hc1 : TransferProgress.is_cancelled p1 = false)
      by (unfold p1; by rewrite update_is_cancelled).
    assert (Hidx1 : (0 < index + 1)%Z) by lia.
    specialize (IH (index + 1)%Z st1 p1 Hidx1 Hp1 Hc1). cbv zeta in IH.
    destruct IH as (Hresp & Hfile & p' & Hp' & Hc' & Ht' & Hsize).
    destruct (upload_chunks b64decode data w (index + 1) (Some id) contents
                st1) as [resps st2] eqn:Hrun.
    cbn [fst snd] in *. rewrite Hst1 in Hfile, Hsize.
    cbn [default] in Hfile, Hsize.
    assert (Hdecoded : decoded_chunks b64decode (c :: contents) =
                       chunk ++ decoded_chunks b64decode contents).
    { unfold decoded_chunks. cbn [fmap list_fmap concat]. by rewrite Hdec. }
    rewrite Hdecoded, app_assoc. fold file1.
    split; [cbn [length replicate]; by rewrite Hresp|].
    unfold p1 in Ht'. rewrite update_total_size in Ht'.
    destruct contents as [|c' contents'].
    + cbn [upload_chunks] in Hrun. injection Hrun as <- <-.
      unfold decoded_chunks. cbn [fmap list_fmap concat].
      rewrite app_nil_r.
      split; [done|]. exists p1.
      split_and!; try done.
      * unfold p1. by rewrite update_total_size.
      * intros _. unfold p1. by rewrite update_current_size.
    + split; [intros _; by apply Hfile|].
      exists p'. split_and!; try done. intros _. by apply Hsize.
Qed.

(** X24: the chunks of an upload sent one after the other, none marked as
    the last, each with the tempFileId of the answer before it, on
    connections that open and with contents that decode, are all answered
    chunk_uploaded with the same id, and leave a staging file that holds
    the decoded chunks end to end, in the order sent; the progress object
    then counts the length of that file against the declared total. *)
Theorem upload_chunks_assemble data w contents st :
  w_sftp w = None →
  contents ≠ [] →
  Forall (λ c, c ≠ "" ∧ is_Some (b64decode c)) contents →
  u_files st !! temp_file_path_of (w_uuid w) = None →
  let r := upload_chunks b64decode data w 0 None contents st in
  r.1 = replicate (length contents) (resp_chunk_uploaded (Some (w_uuid w))) ∧
  u_files r.2 !! temp_file_path_of (w_uuid w) =
    Some (decoded_chunks b64decode contents) ∧
  ∃ p, TransferManager.get_transfer (transferId data) (u_manager r.2)
         = Some p ∧
       TransferProgress.total_size p = totalSize data ∧
       TransferProgress.current_size p =
         Z.of_nat (length (decoded_chunks b64decode contents)) ∧
       TransferProgress.is_cancelled p = false.
Proof.
  intros Hsftp Hne Hall Hfresh. cbv zeta.
  destruct contents as [|c contents]; [done|].
  apply Forall_cons in Hall as [[Hc [chunk Hdec]] Hall].
  cbn [upload_chunks].
  rewrite (upload_first_chunk b64decode _ w st c chunk);
    [| simpl; done ..].
  cbv zeta. cbn [u_data transferId totalSize]. rewrite Hfresh.
  cbn [default app].
  set (fresh := TransferProgress.init (totalSize data) "upload" (w_clock w)).
  set (p1 := TransferProgress.update (Z.of_nat (length chunk))
               (w_write_clock w) fresh).
  set (st1 := mkUploadState _ _).
  assert (Hst1 : u_files st1 !! temp_file_path_of (w_uuid w) = Some chunk)
    by apply lookup_insert_eq.
  assert (Hp1 : TransferManager.get_transfer (transferId data)
                  (u_manager st1) = Some p1)
    by apply lookup_insert_eq.
  assert (Hc1 : TransferProgress.is_cancelled p1 = false)
    by (unfold p1; by rewrite update_is_cancelled).
  assert (Ht1 : TransferProgress.total_size p1 = totalSize data)
    by (unfold p1; by rewrite update_total_size).
  pose proof (upload_chunks_later data w (w_uuid w) contents Hsftp Hall 1 st1
                p1 ltac:(lia) Hp1 Hc1) as H.
  cbv zeta in H.
  destruct H as (Hresp & Hfile & p' & Hp' & Hc' & Ht' & Hsize).
  change (0 + 1)%Z with 1%Z.
  destruct (upload_chunks b64decode data w 1 (Some (w_uuid w)) contents st1)
    as [resps st2] eqn:Hrun.
  cbn [fst snd] in *. rewrite Hst1 in Hfile, Hsize.
  cbn [default] in Hfile, Hsize.
  assert (Hdecoded : decoded_chunks b64decode (c :: contents) =
                     chunk ++ decoded_chunks b64decode contents).
  { unfold decoded_chunks. cbn [fmap list_fmap concat]. by rewrite Hdec. }
  rewrite Hdecoded.
  split; [cbn [length replicate]; by rewrite Hresp|].
  destruct contents as [|c' contents'].
  - cbn [upload_chunks] in Hrun. injection Hrun as <- <-.
    unfold decoded_chunks. cbn [fmap list_fmap concat]. rewrite app_nil_r.
    split; [done|]. exists p1. split_and!; try done.
    unfold p1. by rewrite update_current_size.
  - split; [by apply Hfile|].
    exists p'. split_and!; try done; [congruence | by apply Hsize].
Qed.

End UploadFileTheorems.


(** The chunks "abc" and "de" of the upload "t1", 5 bytes in all. *)
Lemma upload_chunks_assemble_witness :
  let data := mkUpload 0 false "t1" 5 in
  let contents := ["abc"; "de"] in
  let r := upload_chunks sample_b64decode data kind_world 0 None contents
             empty_uploads in
  r.1 = replicate (length contents) (resp_chunk_uploaded (Some "u1")) ∧
  u_files r.2 !! temp_file_path_of "u1" =
    Some (decoded_chunks sample_b64decode contents) ∧
  ∃ p, TransferManager.get_transfer "t1" (u_manager r.2) = Some p ∧
       TransferProgress.total_size p = 5%Z ∧
       TransferProgress.current_size p =
         Z.of_nat (length (decoded_chunks sample_b64decode contents)) ∧
       TransferProgress.is_cancelled p = false.
Proof.
  apply (upload_chunks_assemble sample_b64decode (mkUpload 0 false "t1" 5)
           kind_world ["abc"; "de"] empty_uploads).
  - reflexivity.
  - discriminate.
  - repeat constructor; (discriminate || (eexists; reflexivity)).
  - reflexivity.
Defined.



Lemma temp_file_path_nonempty id : temp_file_path_of id ≠ "".
Proof. done. Qed.

Section UploadLastChunk.

Variable b64decode : string → option (list Byte.byte).


End UploadLastChunk.


Section UploadFileLastChunk.

Variable b64decode : string → option (list Byte.byte).



(** X27: once a registered transfer has been cancelled, every later chunk
    of it (any chunk but chunk 0, the last one included) is answered
    cancelled at the first test and changes nothing: the requests, however
    many, leave the registry entry, the flag and every staging file as the
    cancellation left them. *)
Theorem cancelled_upload_refuses_chunks reqs st0 tid :
  (TransferManager.cancel_transfer tid (u_manager st0)).1 = true →
  Forall (λ rw : upload_request * upload_world,
            transferId (u_data rw.1) = tid ∧
            chunkIndex (u_data rw.1) ≠ 0%Z) reqs →
  let st :=
    {| u_manager := (TransferManager.cancel_transfer tid (u_manager st0)).2;
       u_files := u_files st0 |} in
  upload_requests b64decode reqs st =
    (replicate (length reqs) resp_cancelled, st) ∧
  TransferManager.is_cancelled tid (u_manager st) = true.
Proof.
  intros Hcancel Hall. cbv zeta.
  unfold TransferManager.cancel_transfer in *.
  destruct (TransferManager._transfers (u_manager st0) !! tid) as [p|]
    eqn:Hp; [|done].
  cbn [snd]. split.
  2: { unfold TransferManager.is_cancelled. cbn.
       by rewrite lookup_insert_eq. }
  induction Hall as [|[req w] reqs [Htid Hidx] _ IH]; [done|].
  cbn [upload_requests length replicate fst] in *.
  unfold upload_file at 1, upload_file_prologue.
  rewrite (proj2 (Z.eqb_neq _ _) Hidx), Htid.
  unfold TransferManager.get_transfer. cbn [u_manager
    TransferManager._transfers]. rewrite lookup_insert_eq.
  cbn. by rewrite IH.
Qed.

End UploadFileLastChunk.



(** The upload "t1" is cancelled after its first chunk; its second and last
    chunk arrives afterwards. *)
Lemma cancelled_upload_refuses_chunks_witness :
  let st0 := (upload_file sample_b64decode first_chunk_request kind_world
                empty_uploads).2 in
  let st :=
    {| u_manager := (TransferManager.cancel_transfer "t1" (u_manager st0)).2;
       u_files := u_files st0 |} in
  upload_requests sample_b64decode [(second_chunk_request, kind_world)] st =
    (replicate 1 resp_cancelled, st) ∧
  TransferManager.is_cancelled "t1" (u_manager st) = true.
Proof.
  apply (cancelled_upload_refuses_chunks sample_b64decode
           [(second_chunk_request, kind_world)]
           (upload_file sample_b64decode first_chunk_request kind_world
              empty_uploads).2 "t1").
  - reflexivity.
  - repeat constructor. discriminate.
Defined.

(** ** Shutdown *)

Lemma set_active_false_idemp s :
  set_active false (set_active false s) = set_active false s.
Proof. done. Qed.

Lemma set_active_inactive s : active s = false → set_active false s = s.
Proof. destruct s; simpl; by intros ->. Qed.

Lemma cleanup_session_spec id st :
  ssh_sessions (cleanup_session id st) =
    alter (set_active false) id (ssh_sessions st) ∧
  client_sessions (cleanup_session id st) = client_sessions st ∧
  threads (cleanup_session id st) = threads st ∧
  effects (cleanup_session id st) = effects st ++ closes_of st id.
Proof.
  unfold cleanup_session, closes_of.
  destruct (ssh_sessions st !! id) as [s|] eqn:Hs.
  - destruct (active s) eqn:Ha; cbn.
    + split_and!; try done. apply map_eq. intros i.
      destruct (decide (i = id)) as [->|Hne].
      * by rewrite lookup_insert_eq, lookup_alter_eq, Hs.
      * by rewrite lookup_insert_ne, lookup_alter_ne.
    + rewrite app_nil_r. split_and!; try done. apply map_eq. intros i.
      destruct (decide (i = id)) as [->|Hne].
      * by rewrite lookup_alter_eq, Hs; cbn; rewrite set_active_inactive.
      * by rewrite lookup_alter_ne.
  - rewrite app_nil_r. split_and!; try done. apply map_eq. intros i.
    destruct (decide (i = id)) as [->|Hne].
    + by rewrite lookup_alter_eq, Hs.
    + by rewrite lookup_alter_ne.
Qed.

Lemma cleanup_lookup ids st (i : string) :
  ssh_sessions (cleanup ids st) !! i =
    if bool_decide (i ∈ ids) then set_active false <$> ssh_sessions st !! i
    else ssh_sessions st !! i.
Proof.
  revert st. induction ids as [|id ids IH]; intros st.
  - done.
  - change (cleanup (id :: ids) st) with (cleanup ids (cleanup_session id st)).
    rewrite IH. destruct (cleanup_session_spec id st) as (-> & _).
    destruct (decide (i = id)) as [->|Hne].
    + rewrite lookup_alter_eq.
      rewrite (bool_decide_eq_true_2 (id ∈ id :: ids)) by set_solver.
      case_bool_decide; [|done].
      destruct (ssh_sessions st !! id); [|done]. done.
    + rewrite lookup_alter_ne by done.
      case_bool_decide as Hin1; case_bool_decide as Hin2; try done.
      * exfalso. apply Hin2. by apply elem_of_cons; right.
      * exfalso. apply elem_of_cons in Hin2 as [Heq | Hin2]; done.
Qed.

Lemma cleanup_rest ids st :
  client_sessions (cleanup ids st) = client_sessions st ∧
  threads (cleanup ids st) = threads st.
Proof.
  revert st. induction ids as [|id ids IH]; intros st; [done|].
  change (cleanup (id :: ids) st) with (cleanup ids (cleanup_session id st)).
  destruct (IH (cleanup_session id st)) as [-> ->].
  destruct (cleanup_session_spec id st) as (_ & -> & -> & _). done.
Qed.

Lemma cleanup_effects ids : ∀ st0 st,
  NoDup ids →
  (∀ id : string, id ∈ ids → ssh_sessions st !! id = ssh_sessions st0 !! id) →
  effects (cleanup ids st) = effects st ++ flat_map (closes_of st0) ids.
Proof.
  induction ids as [|id ids IH]; intros st0 st Hnd Hsame.
  - cbn. by rewrite app_nil_r.
  - change (cleanup (id :: ids) st) with (cleanup ids (cleanup_session id st)).
    apply NoDup_cons in Hnd as [Hnotin Hnd].
    destruct (cleanup_session_spec id st) as (Hs & _ & _ & He).
    rewrite (IH st0 (cleanup_session id st) Hnd).
    + rewrite He. cbn [flat_map]. rewrite <- app_assoc. do 2 f_equal.
      unfold closes_of. rewrite Hsame by set_solver. done.
    + intros id' Hin. rewrite Hs, lookup_alter_ne by set_solver.
      apply Hsame. set_solver.
Qed.

Lemma cleanup_inactive ids st :
  (∀ (id : string) s, ssh_sessions st !! id = Some s → active s = false) →
  cleanup ids st = st.
Proof.
  intros Hall. induction ids as [|id ids IH]; [done|].
  change (cleanup (id :: ids) st) with (cleanup ids (cleanup_session id st)).
  assert (cleanup_session id st = st) as ->; [|done].
  unfold cleanup_session.
  destruct (ssh_sessions st !! id) as [s|] eqn:Hs; [|done].
  by rewrite (Hall id s Hs).
Qed.

(** X28: the loop of the atexit hook that goes through cleanup_session
    (the second of the two hooks named cleanup) marks
    every session inactive and closes, in the order of the dictionary, the
    channel and then the connection of each session that was still active,
    and of no other; it removes nothing: every session stays registered and
    the clients' session sets and the reader threads are as before.  Run a
    second time it does nothing at all. *)
Theorem shutdown_closes_active_sessions ids st :
  NoDup ids →
  (∀ id : string, id ∈ ids ↔ is_Some (ssh_sessions st !! id)) →
  let st' := cleanup ids st in
  ssh_sessions st' = set_active false <$> ssh_sessions st ∧
  client_sessions st' = client_sessions st ∧
  threads st' = threads st ∧
  effects st' = effects st ++ flat_map (closes_of st) ids ∧
  cleanup ids st' = st'.
Proof.
  intros Hnd Hids. cbv zeta.
  assert (Hs : ssh_sessions (cleanup ids st) =
               set_active false <$> ssh_sessions st).
  { apply map_eq. intros i. rewrite cleanup_lookup, lookup_fmap.
    case_bool_decide as Hin; [done|].
    destruct (ssh_sessions st !! i) as [s|] eqn:Hi; [|done].
    exfalso. apply Hin, Hids. eauto. }
  destruct (cleanup_rest ids st) as [Hc Ht].
  split_and!; try done.
  - by apply cleanup_effects.
  - apply cleanup_inactive. intros id s. rewrite Hs, lookup_fmap.
    destruct (ssh_sessions st !! id); [|done]. by intros [= <-].
Qed.

(** The service with the one session of alice is shut down. *)
Lemma shutdown_closes_active_sessions_witness :
  let st' := cleanup ["s1"] one_session in
  ssh_sessions st' = set_active false <$> ssh_sessions one_session ∧
  client_sessions st' = client_sessions one_session ∧
  threads st' = threads one_session ∧
  effects st' = effects one_session ++ flat_map (closes_of one_session) ["s1"] ∧
  cleanup ["s1"] st' = st'.
Proof.
  apply (shutdown_closes_active_sessions ["s1"] one_session).
  - repeat constructor. by intros Hin%elem_of_nil.
  - intros id. cbn. destruct (decide (id = "s1")) as [->|Hne].
    + rewrite lookup_insert_eq. split; [eauto | intros _; by left].
    + rewrite lookup_insert_ne by done. rewrite lookup_empty.
      split; [by intros Hin%list_elem_of_singleton | by intros [? ?]].
Defined.

Lemma first_cleanup_spec ids : ∀ st,
  first_cleanup ids st = perform (flat_map (closes_all st) ids) st.
Proof.
  induction ids as [|id ids IH]; intros st.
  - cbn. by rewrite perform_nil.
  - change (first_cleanup (id :: ids) st)
      with (first_cleanup ids (perform (closes_all st id) st)).
    rewrite IH, perform_perform. done.
Qed.

(** X30: at interpreter exit both atexit hooks run, the later registered
    one first, so the connections are closed twice over: the hook that goes
    through cleanup_session closes channel and connection of every session
    still active, and the first hook then closes channel and connection of
    every registered session again, active or not.  All sessions end up
    inactive and none is removed from the registry. *)
Theorem exit_closes_sessions_twice ids st :
  NoDup ids →
  (∀ id : string, id ∈ ids ↔ is_Some (ssh_sessions st !! id)) →
  let st' := at_exit ids st in
  ssh_sessions st' = set_active false <$> ssh_sessions st ∧
  client_sessions st' = client_sessions st ∧
  threads st' = threads st ∧
  effects st' =
    effects st ++ flat_map (closes_of st) ids ++ flat_map (closes_all st) ids.
Proof.
  intros Hnd Hids. cbv zeta. unfold at_exit. rewrite first_cleanup_spec.
  assert (Hs : ssh_sessions (cleanup ids st) =
               set_active false <$> ssh_sessions st).
  { apply map_eq. intros i. rewrite cleanup_lookup, lookup_fmap.
    case_bool_decide as Hin; [done|].
    destruct (ssh_sessions st !! i) as [s|] eqn:Hi; [|done].
    exfalso. apply Hin, Hids. eauto. }
  destruct (cleanup_rest ids st) as [Hc Ht].
  cbn [perform ssh_sessions client_sessions threads effects].
  split_and!; try done.
  rewrite (cleanup_effects ids st st Hnd) by done.
  rewrite <- app_assoc. do 2 f_equal.
  apply flat_map_ext. intros id.
  unfold closes_all. rewrite Hs, lookup_fmap.
  by destruct (ssh_sessions st !! id).
Qed.

(** The service exits with the one session of alice open. *)
Lemma exit_closes_sessions_twice_witness :
  let st' := at_exit ["s1"] one_session in
  ssh_sessions st' = set_active false <$> ssh_sessions one_session ∧
  client_sessions st' = client_sessions one_session ∧
  threads st' = threads one_session ∧
  effects st' =
    effects one_session ++ flat_map (closes_of one_session) ["s1"] ++
    flat_map (closes_all one_session) ["s1"].
Proof.
  apply (exit_closes_sessions_twice ["s1"] one_session).
  - repeat constructor. by intros Hin%elem_of_nil.
  - intros id. cbn. destruct (decide (id = "s1")) as [->|Hne].
    + rewrite lookup_insert_eq. split; [eauto | intros _; by left].
    + rewrite lookup_insert_ne by done. rewrite lookup_empty.
      split; [by intros Hin%list_elem_of_singleton | by intros [? ?]].
Defined.

(** ** The cache of load_config *)

Section TTLCacheProperties.

Context {R : Type}.

Lemma last_run_snoc (key : string) hist (h : (string * Q * R) * (R * bool)) :
  TTLCache.last_run key (hist ++ [h]) =
    if h.2.2 && bool_decide (h.1.1.1 = key) then Some (h.2.1, h.1.1.2)
    else TTLCache.last_run key hist.
Proof.
  unfold TTLCache.last_run. rewrite foldl_app. cbn [foldl].
  by destruct h as [[[k now] v] [result called]].
Qed.

Lemma wrappers_serve (calls : list (string * Q * R)) :
  ∀ (c : TTLCache.t R) hist,
    (∀ k : string, TTLCache.cache c !! k = TTLCache.last_run k hist) →
    ∀ (i : nat) key now func,
      calls !! i = Some (key, now, func) →
      let outs := (TTLCache.wrappers calls c).1 in
      outs !! i =
        Some match TTLCache.last_run key
                     (hist ++ zip (take i calls) (take i outs)) with
             | Some (result, timestamp) =>
                 if Qlt_bool (now - timestamp) (TTLCache.ttl c)
                 then (result, false) else (func, true)
             | None => (func, true)
             end.
Proof.
  induction calls as [|[[k0 now0] v0] calls IH]; intros c hist Hinv i key now
    func Hi; [done|].
  cbv zeta. cbn [TTLCache.wrappers].
  destruct (TTLCache.wrapper k0 now0 v0 c) as [[r0 called0] c1] eqn:Hw.
  destruct (TTLCache.wrappers calls c1) as [outs c2] eqn:Hrun.
  cbn [fst].
  assert (Hc1 : TTLCache.ttl c1 = TTLCache.ttl c ∧
                ∀ k : string, TTLCache.cache c1 !! k =
                  TTLCache.last_run k (hist ++ [((k0, now0, v0),
                                                 (r0, called0))])).
  { unfold TTLCache.wrapper in Hw.
    destruct (TTLCache.cache c !! k0) as [[result timestamp]|] eqn:Hk0.
    - destruct (Qlt_bool (now0 - timestamp) (TTLCache.ttl c)).
      + injection Hw as <- <- <-. split; [done|]. intros k.
        rewrite last_run_snoc. cbn. apply Hinv.
      + injection Hw as <- <- <-. split; [done|]. intros k.
        rewrite last_run_snoc. cbn.
        case_bool_decide as Hk; [subst; by rewrite lookup_insert_eq|].
        rewrite lookup_insert_ne by done. apply Hinv.
    - injection Hw as <- <- <-. split; [done|]. intros k.
      rewrite last_run_snoc. cbn.
      case_bool_decide as Hk; [subst; by rewrite lookup_insert_eq|].
      rewrite lookup_insert_ne by done. apply Hinv. }
  destruct Hc1 as [Httl Hinv1].
  destruct i as [|i].
  - cbn in Hi. injection Hi as -> -> ->.
    cbn [take zip zip_with lookup list_lookup]. rewrite app_nil_r, <- Hinv.
    unfold TTLCache.wrapper in Hw. cbn.
    destruct (TTLCache.cache c !! key) as [[result timestamp]|].
    + destruct (Qlt_bool (now - timestamp) (TTLCache.ttl c));
        by injection Hw as <- <- <-.
    + by injection Hw as <- <- <-.
  - cbn in Hi. cbn [take zip zip_with]. rewrite cons_middle, app_assoc.
    pose proof (IH c1 _ Hinv1 i key now func Hi) as H.
    cbv zeta in H. rewrite Hrun in H. cbn [fst] in H. rewrite Httl in H.
    exact H.
Qed.

(** X29: a function wrapped in a TTLCache is served from its last run.
    Whatever calls came before, a call under a key returns, without
    running the function, what the last call that ran it under that key
    returned, provided that run is less than ttl seconds old; otherwise (no
    such run, or one that is ttl seconds old or older) it runs the function
    and returns its value.  A call served from the cache does not renew the
    entry: the age counts from the run. *)
Theorem ttl_cache_serves_last_run ttl_ (calls : list (string * Q * R)) i key
    now func :
  calls !! i = Some (key, now, func) →
  let outs := (TTLCache.wrappers calls (TTLCache.init ttl_)).1 in
  outs !! i =
    Some match TTLCache.last_run key (zip (take i calls) (take i outs)) with
         | Some (result, timestamp) =>
             if Qlt_bool (now - timestamp) ttl_
             then (result, false) else (func, true)
         | None => (func, true)
         end.
Proof.
  intros Hi.
  apply (wrappers_serve calls (TTLCache.init ttl_) [] (λ k, lookup_empty k)
           i key now func Hi).
Qed.

End TTLCacheProperties.

(** load_config, cached for 300 seconds, is called at 0, 100 and 400
    seconds: the call at 100 is served the value of the first, the call at
    400 runs the function again. *)
Lemma ttl_cache_serves_last_run_witness :
  let calls := [("(){}", 0%Q, "first"); ("(){}", 100%Q, "second");
                ("(){}", 400%Q, "third")] in
  let outs := (TTLCache.wrappers calls (TTLCache.init 300)).1 in
  outs !! 1%nat =
    Some match TTLCache.last_run "(){}" (zip (take 1 calls) (take 1 outs)) with
         | Some (result, timestamp) =>
             if Qlt_bool (100 - timestamp) 300
             then (result, false) else ("second", true)
         | None => ("second", true)
         end.
Proof.
  apply (ttl_cache_serves_last_run 300
           [("(){}", 0%Q, "first"); ("(){}", 100%Q, "second");
            ("(){}", 400%Q, "third")] 1 "(){}" 100%Q "second").
  reflexivity.
Defined.
